(** * Verification of the Company endpoints of the HubSpot client

    Shallow embedding of [company.go]: the delimited product-name helpers
    ([AddProductName], [RemoveProductName]) with Go's slice semantics made
    explicit, and the six service operations ([Get], [GetAll], [Search],
    [Create], [Update], [Delete]) over an abstract transport whose calls
    are recorded. *)

From Stdlib Require Import Ascii String.
From stdpp Require Import base list strings.

Open Scope string_scope.
Open Scope list_scope.

(** ** Run-time panics *)

(** The panics of the Go runtime that the modelled code can raise. *)
Inductive panic : Type :=
  | NilPointerDereference
  | SliceBoundsCapacity (hi cap : nat)   (* slice bounds out of range [:hi] with capacity cap *)
  | SliceBoundsOutOfRange (lo hi : nat)  (* slice bounds out of range [lo:hi] *)
  | IndexOutOfRange (i : nat).

Inductive outcome (A : Type) : Type :=
  | Ret (a : A)
  | Panic (p : panic).
Arguments Ret {A} a.
Arguments Panic {A} p.

(** The panic of a slice expression whose lower bound lies above its
    upper bound: slice bounds out of range [lo:hi]. *)
Definition bounds_panic (pn : panic) : Prop :=
  exists lo hi, pn = SliceBoundsOutOfRange lo hi /\ hi < lo.

Definition obind {A B} (m : outcome A) (f : A -> outcome B) : outcome B :=
  match m with
  | Ret a => f a
  | Panic p => Panic p
  end.

Notation "'try' x <- m ; k" := (obind m (fun x => k))
  (at level 10, x pattern, m at level 100, k at level 200).

(** ** The [strings] package *)

Module GoStrings.

(** [strings.Split(s, sep)] for a one-byte separator, the only kind the
    source passes (the literal [";"]): the substrings between the
    separators, one more than there are separators, so the empty string
    splits into one empty token. *)
Fixpoint Split (s : string) (sep : ascii) : list string :=
  match s with
  | EmptyString => [EmptyString]
  | String ch rest =>
      if decide (ch = sep) then EmptyString :: Split rest sep
      else match Split rest sep with
           | tok :: toks => String ch tok :: toks
           | [] => [String ch EmptyString]
           end
  end.

(** [strings.Join(elems, sep)]. *)
Fixpoint Join (elems : list string) (sep : string) : string :=
  match elems with
  | [] => ""
  | e :: rest =>
      match rest with
      | [] => e
      | _ :: _ => e +:+ sep +:+ Join rest sep
      end
  end.

End GoStrings.

(** ** Go slices over a store of backing arrays *)

Module Slice.

(** The store of backing arrays; a slice header names one of them. *)
Definition heap := list (list string).

Record slice : Type := mkSlice { base : nat; off : nat; len : nat }.

Definition array_of (h : heap) (s : slice) : list string :=
  default [] (h !! base s).

Definition cap (h : heap) (s : slice) : nat :=
  length (array_of h s) - off s.

(** The elements a slice shows. *)
Definition elems (h : heap) (s : slice) : list string :=
  take (len s) (drop (off s) (array_of h s)).

(** [s[lo:hi]]: the upper bound is checked against the capacity, then the
    lower bound against the upper one. *)
Definition reslice (h : heap) (s : slice) (lo hi : nat) : outcome slice :=
  if decide (hi <= cap h s) then
    if decide (lo <= hi) then
      Ret {| base := base s; off := off s + lo; len := hi - lo |}
    else Panic (SliceBoundsOutOfRange lo hi)
  else Panic (SliceBoundsCapacity hi (cap h s)).

(** [s[:hi]] and [s[lo:]]. *)
Definition slice_to (h : heap) (s : slice) (hi : nat) : outcome slice :=
  reslice h s 0 hi.
Definition slice_from (h : heap) (s : slice) (lo : nat) : outcome slice :=
  reslice h s lo (len s).

(** [append(dst, src...)]: when the capacity of [dst] suffices the
    elements are copied (as by memmove, so the source is read before it is
    overwritten) into the backing array of [dst]; otherwise a new array is
    allocated. *)
Definition append (h : heap) (dst src : slice) : heap * slice :=
  let xs := elems h src in
  let n := len dst + length xs in
  if decide (n <= cap h dst) then
    let a := array_of h dst in
    (<[base dst := take (off dst + len dst) a ++ xs ++ drop (off dst + n) a]> h,
     {| base := base dst; off := off dst; len := n |})
  else
    (h ++ [elems h dst ++ xs], {| base := length h; off := 0; len := n |}).

(** A slice that owns a new array holding [xs], with [len = cap]. *)
Definition alloc (h : heap) (xs : list string) : heap * slice :=
  (h ++ [xs], {| base := length h; off := 0; len := length xs |}).

End Slice.

(** ** Typed scalar wrappers *)

(** Modelled from the spec: the declaration of [HsStr], its constructor
    [NewString] and its accessor [String()] are not in [company.go]. The
    wrapper holds a string literal; a [*HsStr] is absent ([nil]) or
    present, and the empty string is a present value. *)
Definition HsStr : Type := string.
Definition NewString (s : string) : option HsStr := Some s.
Definition HsStr_String (hs : HsStr) : string := hs.

(** ** The Company structure and its product-name helpers *)

Section CompanyHelpers.

Context {HsTime : Type}.

Record Company : Type := mkCompany {
  ID : option HsStr;
  Name : option HsStr;
  Industry : option HsStr;
  Domain : option HsStr;
  Phone : option HsStr;
  City : option HsStr;
  State : option HsStr;
  HsCreateDate : option HsTime;
  HsLastModifiedDate : option HsTime;
  HsObjectID : option HsStr;
  HubspotOwnerAssignedDate : option HsTime;
  HubspotOwnerID : option HsStr;
  ProductNames : option HsStr;
  TrialStatus : option HsStr;
  TrialEndDate : option HsStr
}.

(** The assignment [c.ProductNames = v]. *)
Definition set_ProductNames (c : Company) (v : option HsStr) : Company :=
  {| ID := ID c; Name := Name c; Industry := Industry c; Domain := Domain c;
     Phone := Phone c; City := City c; State := State c;
     HsCreateDate := HsCreateDate c;
     HsLastModifiedDate := HsLastModifiedDate c;
     HsObjectID := HsObjectID c;
     HubspotOwnerAssignedDate := HubspotOwnerAssignedDate c;
     HubspotOwnerID := HubspotOwnerID c;
     ProductNames := v;
     TrialStatus := TrialStatus c; TrialEndDate := TrialEndDate c |}.

(** The zero value [Company{}]. *)
Definition zeroCompany : Company :=
  mkCompany None None None None None None None None None None None None
            None None None.

Definition semicolon : ascii := ";"%char.

Definition AddProductName (c : Company) (name : string) : Company :=
  let tmpProductNames : list string :=
    match ProductNames c with
    | Some p =>
        if decide (HsStr_String p <> "")
        then GoStrings.Split (HsStr_String p) semicolon
        else []
    | None => []
    end in
  let tmpProductNames := tmpProductNames ++ [name] in
  set_ProductNames c (NewString (GoStrings.Join tmpProductNames ";")).

(** The state of the loop of [RemoveProductName]: the store and the
    current value of the variable [tmpProductNames]. *)
Definition loop_state : Type := (Slice.heap * Slice.slice)%type.

(** [append(tmpProductNames[:i], tmpProductNames[i+1:]...)] *)
Definition cut (st : loop_state) (i : nat) : outcome loop_state :=
  let '(h, tmp) := st in
  try dst <- Slice.slice_to h tmp i;
  try src <- Slice.slice_from h tmp (i + 1);
  Ret (Slice.append h dst src).

(** The body of [for i, v := range tmpProductNames], run for the indices
    [idxs]. The range expression is evaluated once: [rng] is the slice
    header the loop was entered with, and [v] is read through it from the
    store as it is at iteration [i]. *)
Fixpoint range_loop (name : string) (rng : Slice.slice) (idxs : list nat)
    (st : loop_state) : outcome loop_state :=
  match idxs with
  | [] => Ret st
  | i :: idxs' =>
      match Slice.elems st.1 rng !! i with
      | None => Panic (IndexOutOfRange i)
      | Some v =>
          if decide (v = name) then
            try st' <- cut st i;
            range_loop name rng idxs' st'
          else range_loop name rng idxs' st
      end
  end.

(** A state the loop can be in after it has cut out a token while the
    last of the [n] split tokens is [name]: one array of length [n] whose
    last place still holds [name], and a slice from its start that has
    become shorter than [n]. *)
Definition shortened (n : nat) (name : string) (st : loop_state) : Prop :=
  exists b m,
    st = ([b], Slice.mkSlice 0 0 m) /\
    length b = n /\ b !! (n - 1) = Some name /\ m < n.

(** A state the loop can be in while the last of the [n] split tokens is
    not [name]: one array of length [n], a non-empty slice from its start,
    and no [name] in the last place the slice shows or behind it. *)
Definition tail_clear (n : nat) (name : string) (st : loop_state) : Prop :=
  exists b m,
    st = ([b], Slice.mkSlice 0 0 m) /\
    length b = n /\ 1 <= m <= n /\
    forall k v, m - 1 <= k -> b !! k = Some v -> v <> name.

Definition RemoveProductName (c : Company) (name : string) : outcome Company :=
  match ProductNames c with
  | None => Ret c
  | Some p =>
      let '(h, tmpProductNames) :=
        Slice.alloc [] (GoStrings.Split (HsStr_String p) semicolon) in
      try st <- range_loop name tmpProductNames
                  (seq 0 (Slice.len tmpProductNames)) (h, tmpProductNames);
      let '(h, tmpProductNames) := st in
      if decide (Slice.len tmpProductNames = 0) then
        Ret (set_ProductNames c None)
      else
        Ret (set_ProductNames c
               (NewString (GoStrings.Join (Slice.elems h tmpProductNames) ";")))
  end.

End CompanyHelpers.

Arguments Company : clear implicits.

(** ** Query options and envelopes *)

Definition companyBasePath : string := "companies".

Definition defaultCompanyFields : list string :=
  [ "id";
    "name";
    "industry";
    "domain";
    "phone";
    "city";
    "state";
    "hs_createdate";
    "hs_lastmodifieddate";
    "hs_object_id";
    "hubspot_owner_assigneddate";
    "hubspot_owner_id";
    "products";
    "trial_status";
    "trial_end_date" ].

Section Service.

(** [Any] are the non-nil values of [interface{}] the caller passes (in
    practice a pointer to its own structure); [QueryExtras] the pagination
    and filter parameters of a query option; [SearchOption] the search
    option; [Cursor] the pagination cursor; [Error] the non-nil values of
    [error]; [World] whatever the transport talks to. *)
Context {Any HsTime QueryExtras SearchOption Cursor Error World : Type}.

(** An [interface{}] value: [None] is the nil interface. *)
Definition iface : Type := option Any.

(** Modelled from the spec: the declaration of [RequestQueryOption] is
    not in [company.go]. A value object holding the requested property
    name list, the association type names, and pagination and filter
    parameters. A nil and an empty Go slice are both the empty list. *)
Record RequestQueryOption : Type := mkQueryOption {
  Properties : list string;
  Associations : list string;
  Extras : QueryExtras
}.

(** Modelled from the spec: the method [setupProperties] of
    [RequestQueryOption] is not in [company.go]. It returns an option whose
    property list is the caller's list if that is non-empty, otherwise the
    supplied default list; everything else is kept. *)
Definition setupProperties (o : RequestQueryOption)
    (defaultFields : list string) : RequestQueryOption :=
  match Properties o with
  | [] => {| Properties := defaultFields;
             Associations := Associations o;
             Extras := Extras o |}
  | _ :: _ => o
  end.

(** Modelled from the spec: the declarations of [RequestPayload],
    [ResponseResource] and [ResponseResourceMulti] are not in
    [company.go]. The request envelope has the single field "properties";
    the single response envelope wraps one resource's properties plus
    read-only metadata (ID, creation and modification timestamps); the
    multi envelope is an ordered sequence of single envelopes plus an
    opaque pagination cursor. *)
Record RequestPayload : Type := mkPayload {
  payloadProperties : iface
}.

Record ResponseResource : Type := mkResource {
  resourceID : string;
  resourceProperties : iface;
  CreatedAt : option HsTime;
  UpdatedAt : option HsTime
}.

Record ResponseResourceMulti : Type := mkMulti {
  Results : list ResponseResource;
  Paging : option Cursor
}.

(** The composite literals [&ResponseResource{Properties: p}] (with
    [p = None] it is [&ResponseResource{}]) and
    [&ResponseResourceMulti{Results: rs}]: the fields left out are zero. *)
Definition newResource (p : iface) : ResponseResource :=
  {| resourceID := ""; resourceProperties := p;
     CreatedAt := None; UpdatedAt := None |}.

Definition newMulti (rs : list ResponseResource) : ResponseResourceMulti :=
  {| Results := rs; Paging := None |}.

(** ** The transport collaborator *)

(** The response target handed to the transport is a pointer to a single
    or to a multi envelope. *)
Inductive kind : Type := Single | Multi.

Definition envelope (k : kind) : Type :=
  match k with
  | Single => ResponseResource
  | Multi => ResponseResourceMulti
  end.

(** The request body of [Post] and [Patch] in this file: a payload, or the
    search option pointer as the caller gave it (possibly nil). *)
Inductive body : Type :=
  | BodyPayload (req : RequestPayload)
  | BodySearch (option : option SearchOption).

(** What a transport call hands back: the envelope as the transport left
    it behind the pointer, and the error ([None] is nil). *)
Definition reply (k : kind) : Type := (envelope k * option Error)%type.

(** The methods of the client that [company.go] calls; each runs against
    the outside world and may change it. *)
Record Client : Type := mkClient {
  clientGet : forall k, string -> envelope k -> RequestQueryOption ->
              World -> reply k * World;
  clientPost : forall k, string -> body -> envelope k ->
               World -> reply k * World;
  clientPatch : forall k, string -> body -> envelope k ->
                World -> reply k * World;
  clientDelete : string -> World -> option Error * World
}.

Record CompanyServiceOp : Type := mkService {
  companyPath : string;
  client : Client
}.

(** A record of one call to the transport, with the arguments as they
    were when the call was made. *)
Inductive call : Type :=
  | CallGet (path : string) (k : kind) (resource : envelope k)
            (option : RequestQueryOption)
  | CallPost (path : string) (data : body) (k : kind) (resource : envelope k)
  | CallPatch (path : string) (data : body) (k : kind) (resource : envelope k)
  | CallDelete (path : string).

Record state : Type := mkState {
  world : World;
  calls : list call
}.

(** Computations that run against the transport and may panic. *)
Definition M (A : Type) : Type := state -> outcome (A * state).

Definition ret {A} (a : A) : M A := fun st => Ret (a, st).

Definition bind {A B} (m : M A) (f : A -> M B) : M B :=
  fun st =>
    match m st with
    | Ret (a, st') => f a st'
    | Panic p => Panic p
    end.

Definition raise {A} (p : panic) : M A := fun _ => Panic p.

Notation "'run' x <- m ; k" := (bind m (fun x => k))
  (at level 10, x pattern, m at level 100, k at level 200).

(** Reading a field through a pointer. *)
Definition deref {A} (ptr : option A) : M A :=
  match ptr with
  | Some a => ret a
  | None => raise NilPointerDereference
  end.

Definition record_call (c : call) (w : World) (st : state) : state :=
  {| world := w; calls := calls st ++ [c] |}.

Definition doGet (s : CompanyServiceOp) {k} (path : string)
    (resource : envelope k) (option : RequestQueryOption) : M (reply k) :=
  fun st =>
    let '(r, w) := clientGet (client s) k path resource option (world st) in
    Ret (r, record_call (CallGet path k resource option) w st).

Definition doPost (s : CompanyServiceOp) {k} (path : string)
    (data : body) (resource : envelope k) : M (reply k) :=
  fun st =>
    let '(r, w) := clientPost (client s) k path data resource (world st) in
    Ret (r, record_call (CallPost path data k resource) w st).

Definition doPatch (s : CompanyServiceOp) {k} (path : string)
    (data : body) (resource : envelope k) : M (reply k) :=
  fun st =>
    let '(r, w) := clientPatch (client s) k path data resource (world st) in
    Ret (r, record_call (CallPatch path data k resource) w st).

Definition doDelete (s : CompanyServiceOp) (path : string) : M (option Error) :=
  fun st =>
    let '(e, w) := clientDelete (client s) path (world st) in
    Ret (e, record_call (CallDelete path) w st).

(** [m], started in [st], makes exactly the one transport call [c], which
    leaves the world as [w], and returns [res] without panicking. *)
Definition issues {A} (m : M A) (st : state) (c : call) (res : A)
    (w : World) : Prop :=
  m st = Ret (res, {| world := w; calls := calls st ++ [c] |}).

(** The result [res] of an operation hands on the outcome of its transport
    call: the error [err] as it is with no resource, or the envelope [val]
    with no error. *)
Definition propagates {A} (err : option Error) (val : A)
    (res : option A * option Error) : Prop :=
  (forall e, err = Some e -> res = (None, Some e)) /\
  (err = None -> res = (Some val, None)).

(** The shared tail of the operations that return a resource:
    [if err != nil { return nil, err }; return resource, nil]. *)
Definition finish {k} (r : reply k) : option (envelope k) * option Error :=
  match r.2 with
  | Some err => (None, Some err)
  | None => (Some r.1, None)
  end.

(** The Go result types: a pointer to a single or a multi envelope (nil
    is [None]) and an error. *)
Definition resource_result : Type :=
  (option ResponseResource * option Error)%type.
Definition multi_result : Type :=
  (option ResponseResourceMulti * option Error)%type.

(** ** The operations *)

Definition Get (s : CompanyServiceOp) (companyID : string) (company : iface)
    (option : option RequestQueryOption)
    : M resource_result :=
  let resource := newResource company in
  let path := companyPath s +:+ "/" +:+ companyID in
  run opt <- deref option;
  let '(path, resource) :=
    match Associations opt with
    | [] => (path, resource)
    | association :: _ =>
        (path +:+ "/associations/" +:+ association, newResource None)
    end in
  run r <- doGet s (k := Single) path resource
         (setupProperties opt defaultCompanyFields);
  ret (finish r).

Definition Create (s : CompanyServiceOp) (company : iface)
    : M resource_result :=
  let req := {| payloadProperties := company |} in
  let resource := newResource company in
  run r <- doPost s (k := Single) (companyPath s) (BodyPayload req) resource;
  ret (finish r).

Definition Update (s : CompanyServiceOp) (companyID : string) (company : iface)
    : M resource_result :=
  let req := {| payloadProperties := company |} in
  let resource := newResource company in
  run r <- doPatch s (k := Single) (companyPath s +:+ "/" +:+ companyID)
         (BodyPayload req) resource;
  ret (finish r).

Definition GetAll (s : CompanyServiceOp) (company : iface)
    (option : option RequestQueryOption)
    : M multi_result :=
  let resource := newMulti [] in
  run opt <- deref option;
  let opt :=
    match Properties opt with
    | [] => setupProperties opt defaultCompanyFields
    | _ :: _ => opt
    end in
  run r <- doGet s (k := Multi) (companyPath s) resource opt;
  ret (finish r).

Definition Search (s : CompanyServiceOp) (company : iface)
    (option : option SearchOption)
    : M multi_result :=
  let resources := [] in
  let resources := resources ++ [newResource company] in
  let resource := newMulti resources in
  run r <- doPost s (k := Multi) (companyPath s +:+ "/search")
         (BodySearch option) resource;
  ret (finish r).

Definition Delete (s : CompanyServiceOp) (companyID : string)
    : M (option Error) :=
  let path := companyPath s +:+ "/" +:+ companyID in
  run err <- doDelete s path;
  match err with
  | Some e => ret (Some e)
  | None => ret None
  end.

End Service.

Notation "'run' x <- m ; k" := (bind m (fun x => k))
  (at level 10, x pattern, m at level 100, k at level 200).

Arguments Client : clear implicits.
Arguments CompanyServiceOp : clear implicits.
Arguments state : clear implicits.

(** ** Concrete instances used to exercise the model *)

(** A company whose only field set is [ProductNames]. *)
Definition withProducts (s : string) : Company unit :=
  set_ProductNames zeroCompany (Some s).

(** A transport that fails every call with the error [e], and one that
    succeeds every call; both leave the envelope as it was handed in and
    count the calls in the world. *)
Definition failingClient (e : string)
    : Client string unit unit unit unit string nat :=
  {| clientGet := fun k _ resource _ w => ((resource, Some e), S w);
     clientPost := fun k _ _ resource w => ((resource, Some e), S w);
     clientPatch := fun k _ _ resource w => ((resource, Some e), S w);
     clientDelete := fun _ w => (Some e, S w) |}.

Definition quietClient : Client string unit unit unit unit string nat :=
  {| clientGet := fun k _ resource _ w => ((resource, None), S w);
     clientPost := fun k _ _ resource w => ((resource, None), S w);
     clientPatch := fun k _ _ resource w => ((resource, None), S w);
     clientDelete := fun _ w => (None, S w) |}.

Definition demoService (cl : Client string unit unit unit unit string nat)
    : CompanyServiceOp string unit unit unit unit string nat :=
  {| companyPath := companyBasePath; client := cl |}.

Definition demoState : state string unit unit unit unit nat :=
  {| world := 0; calls := [] |}.

Definition demoOption (properties associations : list string)
    : @RequestQueryOption unit :=
  {| Properties := properties; Associations := associations; Extras := tt |}.

(** * Properties *)

(** ** String concatenation *)

Lemma append_cons (a : ascii) (s t : string) :
  String a s +:+ t = String a (s +:+ t).
Proof. reflexivity. Qed.

Lemma append_nil_l (s : string) : "" +:+ s = s.
Proof. reflexivity. Qed.

Lemma append_nil_r (s : string) : s +:+ "" = s.
Proof.
  induction s as [|a s IH]; [reflexivity|].
  now rewrite append_cons, IH.
Qed.

Lemma append_assoc (s t u : string) : (s +:+ t) +:+ u = s +:+ (t +:+ u).
Proof.
  induction s as [|a s IH]; [reflexivity|].
  now rewrite !append_cons, IH.
Qed.

(** ** Splitting and joining *)

Section SplitJoin.

Import GoStrings.

Lemma Split_not_nil (s : string) (sep : ascii) : Split s sep <> [].
Proof.
  destruct s as [|ch rest]; simpl; [discriminate|].
  destruct (decide (ch = sep)); [discriminate|].
  destruct (Split rest sep); discriminate.
Qed.

Lemma Join_cons (e : string) (rest : list string) (sep : string) :
  rest <> [] -> Join (e :: rest) sep = e +:+ sep +:+ Join rest sep.
Proof. destruct rest; [congruence | reflexivity]. Qed.

Lemma Join_push_head (ch : ascii) (tok : string) (toks : list string)
    (sep : string) :
  Join (String ch tok :: toks) sep = String ch (Join (tok :: toks) sep).
Proof. destruct toks; reflexivity. Qed.

(** Joining what was split gives the string back. *)
Lemma Join_Split (s : string) (sep : ascii) :
  Join (Split s sep) (String sep "") = s.
Proof.
  induction s as [|ch rest IH]; [reflexivity|]. simpl Split.
  destruct (decide (ch = sep)) as [->|Hne].
  - rewrite Join_cons by apply Split_not_nil. now rewrite IH.
  - pose proof (Split_not_nil rest sep) as Hnil.
    destruct (Split rest sep) as [|tok toks]; [congruence|].
    now rewrite Join_push_head, IH.
Qed.

Lemma Join_Split_semicolon (s : string) :
  Join (Split s semicolon) ";" = s.
Proof. exact (Join_Split s semicolon). Qed.

Lemma Join_snoc (toks : list string) (x sep : string) :
  toks <> [] -> Join (toks ++ [x]) sep = Join toks sep +:+ sep +:+ x.
Proof.
  induction toks as [|e rest IH]; [congruence|]. intros _.
  destruct rest as [|e' rest]; [reflexivity|].
  change ((e :: e' :: rest) ++ [x]) with (e :: ((e' :: rest) ++ [x])).
  rewrite Join_cons by discriminate. rewrite IH by discriminate.
  rewrite (Join_cons e (e' :: rest)) by discriminate.
  now rewrite !append_assoc.
Qed.

End SplitJoin.

(** ** The product-name helpers *)

Section ProductNames.

Context {HsTime : Type}.

Implicit Types (c : Company HsTime) (name : string).

Lemma ProductNames_set c (v : option HsStr) :
  ProductNames (set_ProductNames c v) = v.
Proof. reflexivity. Qed.

(** C3: [AddProductName] starts from no tokens when the field is absent or
    empty and from the split of the current value otherwise, appends the
    name whether or not it is already there, and stores the tokens joined
    with semicolons, so the field is present afterwards and holds the old
    value, a semicolon and the name. On an absent field adding "x" gives
    "x", and adding it again gives "x;x". *)
Theorem AddProductName_appends c name :
  (ProductNames c = None \/ ProductNames c = Some "" ->
   AddProductName c name =
     set_ProductNames c (NewString (GoStrings.Join ([] ++ [name]) ";")) /\
   ProductNames (AddProductName c name) = Some name) /\
  (forall p,
     ProductNames c = Some p -> p <> "" ->
     AddProductName c name =
       set_ProductNames c
         (NewString
            (GoStrings.Join (GoStrings.Split p semicolon ++ [name]) ";")) /\
     ProductNames (AddProductName c name) = Some (p +:+ ";" +:+ name)) /\
  is_Some (ProductNames (AddProductName c name)) /\
  ProductNames (AddProductName (@zeroCompany HsTime) "x") = Some "x" /\
  ProductNames (AddProductName (AddProductName (@zeroCompany HsTime) "x") "x")
    = Some "x;x".
Proof.
  split; [|split; [|split; [|split; reflexivity]]].
  - intros [Habsent|Hempty]; unfold AddProductName.
    + rewrite Habsent. now split.
    + rewrite Hempty. now split.
  - intros p Hp Hne. unfold AddProductName, HsStr_String. rewrite Hp.
    case_decide; [|contradiction].
    split; [reflexivity|]. rewrite ProductNames_set. unfold NewString.
    rewrite Join_snoc by apply Split_not_nil.
    now rewrite Join_Split_semicolon.
  - unfold AddProductName. now rewrite ProductNames_set.
Qed.

Lemma RemoveProductName_absent c name :
  ProductNames c = None -> RemoveProductName c name = Ret c.
Proof. unfold RemoveProductName. now intros ->. Qed.

(** The loop run over two stretches of indices is the two runs in turn. *)
Lemma range_loop_app name rng (idxs1 idxs2 : list nat) (st : loop_state) :
  range_loop name rng (idxs1 ++ idxs2) st =
  try st' <- range_loop name rng idxs1 st; range_loop name rng idxs2 st'.
Proof.
  revert st. induction idxs1 as [|i idxs1 IH]; intros st; [reflexivity|].
  simpl. destruct (Slice.elems st.1 rng !! i) as [v|]; [|reflexivity].
  case_decide; [|apply IH].
  destruct (cut st i) as [st'|]; [apply IH | reflexivity].
Qed.

(** Over indices where the range slice shows no token equal to the name
    the loop changes nothing. *)
Lemma range_loop_skip name rng (idxs : list nat) h tmp :
  Forall (fun i => exists v, Slice.elems h rng !! i = Some v /\ v <> name) idxs ->
  range_loop name rng idxs (h, tmp) = Ret (h, tmp).
Proof.
  induction 1 as [|i idxs (v & Hv & Hne) _ IH]; [reflexivity|].
  simpl. rewrite Hv. now case_decide.
Qed.

(** A slice from the start of the only array shows a prefix of it. *)
Lemma elems_prefix (a : list string) (n : nat) :
  Slice.elems [a] (Slice.mkSlice 0 0 n) = take n a.
Proof. reflexivity. Qed.

(** A slice over the whole of the only array shows that array. *)
Lemma elems_whole (a : list string) :
  Slice.elems [a] (Slice.mkSlice 0 0 (length a)) = a.
Proof. unfold Slice.elems, Slice.array_of. simpl. apply firstn_all. Qed.

(** Cutting out index [length l1] while the slice still spans the whole
    array: the tokens behind it move one place down inside the array,
    whose last place keeps its old content. *)
Lemma cut_whole (l1 l2 : list string) (x : string) :
  cut ([l1 ++ x :: l2], Slice.mkSlice 0 0 (length (l1 ++ x :: l2)))
      (length l1) =
  Ret ([l1 ++ l2 ++ drop (length l1 + length l2) (l1 ++ x :: l2)],
       Slice.mkSlice 0 0 (length l1 + length l2)).
Proof.
  unfold cut, Slice.slice_to, Slice.slice_from, Slice.reslice, Slice.cap,
    Slice.array_of. simpl.
  rewrite !length_app. simpl.
  rewrite !Nat.sub_0_r, !decide_True by lia. simpl.
  replace (length l1 + S (length l2) - (length l1 + 1)) with (length l2)
    by lia.
  unfold Slice.append, Slice.elems, Slice.cap, Slice.array_of. simpl.
  assert (Hsrc : take (length l2) (drop (length l1 + 1) (l1 ++ x :: l2)) = l2).
  { rewrite drop_app_ge by lia.
    replace (length l1 + 1 - length l1) with 1 by lia. simpl.
    rewrite drop_0. apply firstn_all. }
  rewrite Hsrc, length_app. simpl.
  rewrite Nat.sub_0_r, decide_True by lia.
  rewrite take_app_length. reflexivity.
Qed.

(** After the cut every place behind the cut index holds a token that
    stood behind the removed one. *)
Lemma after_cut_lookup (l1 l2 : list string) (x : string) (i : nat) :
  length l1 < i < length (l1 ++ x :: l2) ->
  exists v,
    (l1 ++ l2 ++ drop (length l1 + length l2) (l1 ++ x :: l2)) !! i = Some v /\
    v ∈ l2.
Proof.
  rewrite length_app. simpl. intros Hi.
  rewrite lookup_app_r by lia.
  destruct (decide (i - length l1 < length l2)) as [Hlt|Hge].
  - rewrite lookup_app_l by lia.
    destruct (lookup_lt_is_Some_2 l2 (i - length l1) Hlt) as [v Hv].
    exists v. split; [exact Hv|]. eapply list_elem_of_lookup_2, Hv.
  - rewrite lookup_app_r by lia.
    rewrite lookup_drop, lookup_app_r by lia.
    replace (length l1 + length l2 + (i - length l1 - length l2) - length l1)
      with (S (length l2 - 1)) by lia.
    simpl.
    destruct (lookup_lt_is_Some_2 l2 (length l2 - 1)) as [v Hv]; [lia|].
    exists v. split; [exact Hv|]. eapply list_elem_of_lookup_2, Hv.
Qed.

(** When the name is one of the tokens exactly once, [RemoveProductName]
    takes that token out and keeps the others in order; taking out the
    only token leaves the field absent. *)
Lemma RemoveProductName_single_occurrence c name (p : HsStr)
    (l1 l2 : list string) :
  ProductNames c = Some p ->
  GoStrings.Split p semicolon = l1 ++ name :: l2 ->
  name ∉ l1 -> name ∉ l2 ->
  RemoveProductName c name =
  Ret (set_ProductNames c
         match l1 ++ l2 with
         | [] => None
         | _ :: _ => Some (GoStrings.Join (l1 ++ l2) ";")
         end).
Proof.
  intros Hp Hsplit Hl1 Hl2.
  unfold RemoveProductName, HsStr_String, Slice.alloc. rewrite Hp, Hsplit.
  cbn [app length Slice.len].
  set (a := l1 ++ name :: l2).
  set (rng := Slice.mkSlice 0 0 (length a)).
  replace (seq 0 (length a))
    with (seq 0 (length l1) ++ [length l1] ++ seq (S (length l1)) (length l2)).
  2:{ subst a. rewrite length_app. simpl.
      rewrite (seq_app (length l1) (S (length l2)) 0). reflexivity. }
  rewrite range_loop_app, range_loop_skip.
  2:{ apply Forall_forall. intros i Hi%elem_of_seq.
      subst rng. rewrite elems_whole. subst a.
      rewrite lookup_app_l by lia.
      destruct (lookup_lt_is_Some_2 l1 i) as [v Hv]; [lia|].
      exists v. split; [exact Hv|]. intros ->.
      apply Hl1. eapply list_elem_of_lookup_2, Hv. }
  cbn [obind]. rewrite range_loop_app. cbn [range_loop fst].
  subst rng. rewrite elems_whole. subst a.
  rewrite list_lookup_middle by reflexivity.
  rewrite decide_True by reflexivity.
  rewrite cut_whole. cbn [obind].
  set (a' := l1 ++ l2 ++ drop (length l1 + length l2) (l1 ++ name :: l2)).
  assert (Hlen : length a' = length (l1 ++ name :: l2)).
  { subst a'. rewrite !length_app, length_drop, length_app. simpl. lia. }
  rewrite range_loop_skip.
  2:{ apply Forall_forall. intros i Hi%elem_of_seq.
      rewrite <- Hlen, elems_whole.
      destruct (after_cut_lookup l1 l2 name i) as (v & Hv & Hin).
      { rewrite length_app. simpl. lia. }
      exists v. split; [exact Hv|]. now intros ->. }
  cbn [obind Slice.len].
  assert (Htake : take (length l1 + length l2) a' = l1 ++ l2).
  { subst a'. rewrite <- length_app, app_assoc. apply take_app_length. }
  case_decide as Hzero.
  - destruct l1, l2; simpl in Hzero; try lia. reflexivity.
  - rewrite elems_prefix, Htake.
    destruct (l1 ++ l2) eqn:Happ; [|reflexivity].
    apply (f_equal length) in Happ. rewrite length_app in Happ.
    simpl in Happ. lia.
Qed.

(** A further cut, before the last index, panics or keeps the state
    [shortened]. *)
Lemma cut_shortened (n : nat) name (st : loop_state) (i : nat) :
  shortened n name st -> i < n - 1 ->
  match cut st i with
  | Ret st' => shortened n name st'
  | Panic _ => True
  end.
Proof.
  intros (b & m & -> & Hlen & Hlast & Hm) Hi.
  unfold cut, Slice.slice_to, Slice.slice_from, Slice.reslice, Slice.cap,
    Slice.array_of. simpl.
  rewrite !Nat.sub_0_r, Hlen, !decide_True by lia. simpl.
  case_decide as Hlo; [|exact I]. simpl.
  unfold Slice.append, Slice.elems, Slice.cap, Slice.array_of. simpl.
  rewrite length_take, length_drop, Hlen, Nat.sub_0_r.
  rewrite decide_True by lia.
  eexists _, _. split; [reflexivity|].
  rewrite !length_app, !length_take, !length_drop, Hlen.
  split; [lia|]. split; [|lia].
  rewrite lookup_app_r by (rewrite length_take; lia).
  rewrite lookup_app_r by (rewrite !length_take, length_drop; lia).
  rewrite lookup_drop, !length_take, length_drop, Hlen.
  rewrite <- Hlast. f_equal. lia.
Qed.

Lemma range_loop_shortened (n : nat) name rng (idxs : list nat)
    (st : loop_state) :
  rng = Slice.mkSlice 0 0 n ->
  shortened n name st ->
  Forall (fun i => i < n - 1) idxs ->
  match range_loop name rng idxs st with
  | Ret st' => shortened n name st'
  | Panic _ => True
  end.
Proof.
  intros -> Hst Hidxs. revert st Hst.
  induction Hidxs as [|i idxs Hi _ IH]; intros st Hst; [exact Hst|].
  simpl. destruct (Slice.elems st.1 _ !! i) as [v|]; [|exact I].
  case_decide; [|now apply IH].
  pose proof (cut_shortened n name st i Hst Hi) as Hcut.
  destruct (cut st i) as [st'|]; [|exact I]. now apply IH.
Qed.

(** When the name is the last token and also stands before it,
    [RemoveProductName] panics: by the time the loop reaches the last
    index the slice is too short to be cut behind it. *)
Lemma RemoveProductName_repeated_last_panics c name (p : HsStr)
    (l1 l3 : list string) :
  ProductNames c = Some p ->
  GoStrings.Split p semicolon = l1 ++ name :: l3 ++ [name] ->
  name ∉ l1 ->
  exists pn, RemoveProductName c name = Panic pn.
Proof.
  intros Hp Hsplit Hl1.
  unfold RemoveProductName, HsStr_String, Slice.alloc. rewrite Hp, Hsplit.
  cbn [app length Slice.len].
  set (l2 := l3 ++ [name]).
  set (a := l1 ++ name :: l2).
  set (rng := Slice.mkSlice 0 0 (length a)).
  assert (Hn : length a = length l1 + length l3 + 2).
  { subst a l2. rewrite length_app. simpl. rewrite length_app. simpl. lia. }
  replace (seq 0 (length a))
    with (seq 0 (length l1) ++ [length l1] ++
          seq (S (length l1)) (length l3) ++ [length a - 1]).
  2:{ rewrite Hn.
      replace (length l1 + length l3 + 2)
        with (length l1 + (1 + (length l3 + 1))) by lia.
      rewrite !seq_app. simpl. do 4 f_equal; lia. }
  rewrite range_loop_app, range_loop_skip.
  2:{ apply Forall_forall. intros i Hi%elem_of_seq.
      subst rng. rewrite elems_whole. subst a.
      rewrite lookup_app_l by lia.
      destruct (lookup_lt_is_Some_2 l1 i) as [v Hv]; [lia|].
      exists v. split; [exact Hv|]. intros ->.
      apply Hl1. eapply list_elem_of_lookup_2, Hv. }
  cbn [obind]. rewrite range_loop_app. cbn [range_loop fst].
  unfold rng at 1. rewrite elems_whole. unfold a at 1.
  rewrite list_lookup_middle by reflexivity.
  rewrite decide_True by reflexivity.
  unfold rng at 1, a at 1 2. rewrite cut_whole. cbn [obind].
  rewrite range_loop_app.
  match goal with
  | |- context [range_loop name rng (seq ?i ?k) ?st] =>
      pose proof (range_loop_shortened (length a) name rng (seq i k) st
                    eq_refl) as Hloop;
      set (mid := range_loop name rng (seq i k) st) in *
  end.
  assert (Hmid : match mid with
                 | Ret st' => shortened (length a) name st'
                 | Panic _ => True
                 end).
  { apply Hloop.
    - exists (l1 ++ l2 ++ drop (length l1 + length l2) (l1 ++ name :: l2)).
      exists (length l1 + length l2). split; [reflexivity|].
      fold a. rewrite !length_app, length_drop, Hn.
      assert (Hl2 : length l2 = length l3 + 1).
      { subst l2. rewrite length_app. simpl. lia. }
      rewrite Hl2. split; [lia|]. split; [|lia].
      rewrite lookup_app_r by lia. rewrite lookup_app_r by lia.
      rewrite lookup_drop. unfold a.
      rewrite lookup_app_r by lia.
      replace (length l1 + (length l3 + 1) +
               (length l1 + length l3 + 2 - 1 - length l1 - length l2)
               - length l1)
        with (S (length l3)) by lia.
      simpl. subst l2. now rewrite list_lookup_middle.
    - apply Forall_forall. intros i Hi%elem_of_seq. lia. }
  clear Hloop. destruct mid as [st'|pn]; [|now exists pn].
  destruct Hmid as (b & m & -> & Hlen & Hlast & Hm).
  cbn [obind range_loop fst].
  assert (Hview : Slice.elems [b] rng = b).
  { subst rng. rewrite <- Hlen. apply elems_whole. }
  rewrite Hview, Hlast, decide_True by reflexivity.
  unfold cut, Slice.slice_to, Slice.slice_from, Slice.reslice, Slice.cap,
    Slice.array_of. simpl.
  rewrite !Nat.sub_0_r, Hlen, !decide_True by lia. simpl.
  rewrite decide_False by lia. simpl. eauto.
Qed.

(** C1, at the inputs where the code leaves the claim: with the name
    standing twice, "x;x", the second match slices past the shortened
    slice and the call panics instead of leaving "x"; with the matches
    apart, "x;a;x;b", both are removed instead of the first only. *)
Theorem RemoveProductName_repeated_name :
  RemoveProductName (withProducts "x;x") "x"
    = Panic (SliceBoundsOutOfRange 2 1) /\
  RemoveProductName (withProducts "x;a;x;b") "x" = Ret (withProducts "a;b").
Proof. split; reflexivity. Qed.

(** When the name is none of the tokens, they are all kept. *)
Lemma RemoveProductName_no_occurrence c name (p : HsStr) :
  ProductNames c = Some p ->
  name ∉ GoStrings.Split p semicolon ->
  RemoveProductName c name = Ret (set_ProductNames c (Some p)).
Proof.
  intros Hp Hnotin.
  unfold RemoveProductName, HsStr_String, Slice.alloc. rewrite Hp.
  cbn [app length Slice.len].
  set (a := GoStrings.Split p semicolon) in *.
  rewrite range_loop_skip.
  2:{ apply Forall_forall. intros i Hi%elem_of_seq.
      rewrite elems_whole.
      destruct (lookup_lt_is_Some_2 a i) as [v Hv]; [lia|].
      exists v. split; [exact Hv|]. intros ->.
      apply Hnotin. eapply list_elem_of_lookup_2, Hv. }
  cbn [obind Slice.len].
  rewrite decide_False.
  2:{ pose proof (Split_not_nil p semicolon) as Hnil. fold a in Hnil.
      destruct a; [congruence | simpl; lia]. }
  rewrite elems_whole. subst a. unfold NewString.
  now rewrite Join_Split_semicolon.
Qed.

End ProductNames.

(** ** Tokens of the product-name field *)

Section ProductNameTokens.

Import GoStrings.

Context {HsTime : Type}.

Implicit Types (c : Company HsTime) (name : string).

(** Splitting distributes over a separator in the middle. *)
Lemma Split_app (s t : string) (sep : ascii) :
  Split (s +:+ String sep t) sep = Split s sep ++ Split t sep.
Proof.
  induction s as [|ch r IH].
  - rewrite append_nil_l. simpl. now rewrite decide_True.
  - rewrite append_cons. simpl. case_decide.
    + now rewrite IH.
    + rewrite IH. pose proof (Split_not_nil r sep) as Hnil.
      now destruct (Split r sep).
Qed.

(** A token that comes out of a split holds no separator: split again it
    is itself. *)
Lemma Split_token_single (s tok : string) (sep : ascii) :
  tok ∈ Split s sep -> Split tok sep = [tok].
Proof.
  revert tok. induction s as [|ch r IH]; intros tok; simpl.
  - now intros ->%list_elem_of_singleton.
  - case_decide as Hch.
    + intros [->|Hin]%elem_of_cons; [reflexivity | now apply IH].
    + pose proof (Split_not_nil r sep) as Hnil.
      destruct (Split r sep) as [|t0 ts]; [congruence|].
      intros [->|Hin]%elem_of_cons.
      * simpl. rewrite decide_False by exact Hch.
        rewrite (IH t0) by apply list_elem_of_here. reflexivity.
      * apply IH. now apply list_elem_of_further.
Qed.

Lemma set_ProductNames_same c (v : option HsStr) :
  ProductNames c = v -> set_ProductNames c v = c.
Proof. destruct c. simpl. now intros ->. Qed.

Lemma set_ProductNames_twice c (v w : option HsStr) :
  set_ProductNames (set_ProductNames c v) w = set_ProductNames c w.
Proof. reflexivity. Qed.

(** The value [AddProductName] stores. *)
Lemma AddProductName_value c name :
  AddProductName c name =
  set_ProductNames c
    (Some match ProductNames c with
          | None => name
          | Some p => if decide (p = "") then name else p +:+ ";" +:+ name
          end).
Proof.
  unfold AddProductName, HsStr_String, NewString.
  destruct (ProductNames c) as [p|]; [|reflexivity].
  destruct (decide (p = "")) as [->|Hne]; [reflexivity|].
  rewrite decide_True by exact Hne.
  rewrite Join_snoc by apply Split_not_nil.
  now rewrite Join_Split_semicolon.
Qed.

(** A cut at an index the slice still covers stays inside the array:
    the tokens behind the index move one place down, and the places from
    the old last one on keep their content. *)
Lemma cut_inside (b : list string) (m i : nat) :
  i + 1 <= m -> m <= length b ->
  cut ([b], Slice.mkSlice 0 0 m) i =
  Ret ([take i b ++ take (m - (i + 1)) (drop (i + 1) b) ++ drop (m - 1) b],
       Slice.mkSlice 0 0 (m - 1)).
Proof.
  intros Hi Hm.
  unfold cut, Slice.slice_to, Slice.slice_from, Slice.reslice, Slice.cap,
    Slice.array_of. simpl.
  rewrite !Nat.sub_0_r, !decide_True by lia. simpl.
  unfold Slice.append, Slice.elems, Slice.cap, Slice.array_of. simpl.
  rewrite length_take, length_drop, Nat.sub_0_r.
  rewrite decide_True by lia.
  replace (i + (m - (i + 1)) `min` (length b - (i + 1))) with (m - 1) by lia.
  reflexivity.
Qed.

(** While the last token is not the name, a match is never at the end of
    the slice, so the cut succeeds and the state stays [tail_clear]. *)
Lemma range_loop_tail_clear (n : nat) name (idxs : list nat)
    (st : loop_state) :
  tail_clear n name st ->
  Forall (fun i => i < n) idxs ->
  exists st',
    range_loop name (Slice.mkSlice 0 0 n) idxs st = Ret st' /\
    tail_clear n name st'.
Proof.
  intros Hst Hidxs. revert st Hst.
  induction Hidxs as [|i idxs Hi _ IH]; intros st Hst; [now exists st|].
  destruct Hst as (b & m & -> & Hlen & Hm & Hclear).
  assert (Hview : Slice.elems [b] (Slice.mkSlice 0 0 n) = b).
  { rewrite <- Hlen. apply elems_whole. }
  cbn [range_loop fst]. rewrite Hview.
  destruct (lookup_lt_is_Some_2 b i) as [v Hv]; [lia|]. rewrite Hv.
  case_decide as Hmatch.
  - subst v.
    assert (Hin : i + 1 <= m - 1).
    { destruct (decide (m - 1 <= i)) as [Hge|]; [|lia].
      now destruct (Hclear i name Hge Hv). }
    rewrite cut_inside by lia. cbn [obind]. apply IH.
    eexists _, _. split; [reflexivity|].
    rewrite !length_app, !length_take, !length_drop.
    split; [lia|]. split; [lia|].
    intros k w Hk.
    destruct (decide (k < m - 1)) as [Hlt|Hge].
    + rewrite lookup_app_r by (rewrite length_take; lia).
      rewrite lookup_app_l by (rewrite !length_take, length_drop; lia).
      rewrite lookup_take_lt by (rewrite length_take; lia).
      rewrite lookup_drop, length_take. apply Hclear. lia.
    + rewrite lookup_app_r by (rewrite length_take; lia).
      rewrite lookup_app_r by (rewrite !length_take, length_drop; lia).
      rewrite lookup_drop, !length_take, length_drop. apply Hclear. lia.
  - apply IH. now exists b, m.
Qed.

(** When the last token is not the name the call returns, and the field
    stays present. *)
Lemma RemoveProductName_last_differs c name (p : HsStr)
    (l : list string) (y : string) :
  ProductNames c = Some p ->
  Split p semicolon = l ++ [y] ->
  y <> name ->
  exists v, RemoveProductName c name = Ret (set_ProductNames c (Some v)).
Proof.
  intros Hp Hsplit Hy.
  unfold RemoveProductName, HsStr_String, Slice.alloc. rewrite Hp, Hsplit.
  cbn [app length Slice.len].
  destruct (range_loop_tail_clear (length (l ++ [y])) name
              (seq 0 (length (l ++ [y])))
              (@pair Slice.heap Slice.slice [l ++ [y]]
                 (Slice.mkSlice 0 0 (length (l ++ [y])))))
    as (st' & -> & (b & m & -> & Hlen & Hm & _)).
  - eexists _, _. split; [reflexivity|]. rewrite length_app. simpl.
    split; [reflexivity|]. split; [lia|].
    intros k v Hk Hv.
    assert (k = length l) as ->.
    { apply lookup_lt_Some in Hv. rewrite length_app in Hv. simpl in Hv. lia. }
    rewrite list_lookup_middle in Hv by reflexivity. congruence.
  - apply Forall_forall. intros i Hi%elem_of_seq. lia.
  - cbn [obind Slice.len]. rewrite decide_False by lia. eauto.
Qed.

(** How the name can stand in a non-empty token list: not at the end;
    at the end only; or at the end and before it. *)
Lemma tokens_cases (a : list string) name :
  a <> [] ->
  (exists l y, a = l ++ [y] /\ y <> name) \/
  (exists l, a = l ++ [name] /\ name ∉ l) \/
  (exists l1 l3, a = l1 ++ name :: l3 ++ [name] /\ name ∉ l1).
Proof.
  destruct a as [|y l _] using rev_ind; [congruence|]. intros _.
  destruct (decide (y = name)) as [->|Hy]; [|left; eauto].
  right. destruct (decide (name ∈ l)) as [Hin|Hnotin]; [|left; eauto].
  right. apply list_elem_of_split_l in Hin as (l1 & l3 & -> & Hl1).
  exists l1, l3. split; [|exact Hl1]. now rewrite <- app_assoc.
Qed.


(** X1: a name that is one of the tokens exactly once is taken out and the
    other tokens keep their order; the call does not panic, and the field
    becomes absent when no token is left. *)
Theorem RemoveProductName_unique_token c name (p : HsStr)
    (l1 l2 : list string) :
  ProductNames c = Some p ->
  Split p semicolon = l1 ++ name :: l2 ->
  name ∉ l1 -> name ∉ l2 ->
  RemoveProductName c name =
  Ret (set_ProductNames c
         match l1 ++ l2 with
         | [] => None
         | _ :: _ => Some (Join (l1 ++ l2) ";")
         end).
Proof. apply RemoveProductName_single_occurrence. Qed.

(** X2: removing a name that is none of the tokens gives the company back
    as it was, the stored string included. *)
Theorem RemoveProductName_missing_name_is_noop c name (p : HsStr) :
  ProductNames c = Some p ->
  name ∉ Split p semicolon ->
  RemoveProductName c name = Ret c.
Proof.
  intros Hp Hnotin.
  rewrite (RemoveProductName_no_occurrence c name p Hp Hnotin).
  now rewrite set_ProductNames_same.
Qed.

(** X7: a name that holds a semicolon is never a token, so removing it
    changes nothing, whatever the field holds. *)
Theorem RemoveProductName_delimited_name_is_noop c name :
  Split name semicolon <> [name] ->
  RemoveProductName c name = Ret c.
Proof.
  intros Hname.
  destruct (ProductNames c) as [p|] eqn:Hp;
    [|now apply RemoveProductName_absent].
  rewrite (RemoveProductName_no_occurrence c name p Hp).
  - now rewrite set_ProductNames_same.
  - intros Hin. apply Hname. eapply Split_token_single, Hin.
Qed.

(** X8: the tokens of the value [AddProductName] stores are the old tokens
    followed by the tokens of the name: one more token for a name without
    semicolon, several for a name with semicolons. *)
Theorem AddProductName_tokens c name :
  exists v : HsStr,
    ProductNames (AddProductName c name) = Some v /\
    (ProductNames c = None \/ ProductNames c = Some "" ->
     Split v semicolon = Split name semicolon) /\
    (forall p : HsStr,
       ProductNames c = Some p -> p <> "" ->
       Split v semicolon = Split p semicolon ++ Split name semicolon).
Proof.
  rewrite AddProductName_value. eexists. split; [reflexivity|]. split.
  - intros [->| ->]; reflexivity.
  - intros p -> Hne. rewrite decide_False by exact Hne.
    apply (Split_app p name semicolon).
Qed.

(** X9: adding a name without semicolon that is not yet a token and then
    removing it gives the company back, except that a present but empty
    field comes back absent. *)
Theorem Add_then_Remove_round_trip c name :
  Split name semicolon = [name] ->
  (ProductNames c = None ->
   RemoveProductName (AddProductName c name) name = Ret c) /\
  (forall p : HsStr,
     ProductNames c = Some p -> p <> "" -> name ∉ Split p semicolon ->
     RemoveProductName (AddProductName c name) name = Ret c) /\
  (ProductNames c = Some "" ->
   RemoveProductName (AddProductName c name) name =
     Ret (set_ProductNames c None)).
Proof.
  intros Hname. rewrite AddProductName_value.
  assert (Hfresh :
    RemoveProductName (set_ProductNames c (Some name)) name =
      Ret (set_ProductNames c None)).
  { now rewrite (RemoveProductName_single_occurrence _ name name [] [])
      by (reflexivity || assumption || apply not_elem_of_nil). }
  split; [|split].
  - intros Hp. rewrite Hp, Hfresh. now rewrite set_ProductNames_same.
  - intros p Hp Hne Hnotin. rewrite Hp, decide_False by exact Hne.
    rewrite (RemoveProductName_single_occurrence _ name
               (p +:+ ";" +:+ name) (Split p semicolon) []).
    + rewrite app_nil_r, set_ProductNames_twice.
      pose proof (Split_not_nil p semicolon) as Hnil.
      destruct (Split p semicolon) eqn:Hsplit; [congruence|].
      rewrite <- Hsplit, Join_Split_semicolon.
      now rewrite set_ProductNames_same.
    + reflexivity.
    + etrans; [apply (Split_app p name semicolon)|]. now rewrite Hname.
    + exact Hnotin.
    + apply not_elem_of_nil.
  - intros Hp. rewrite Hp. apply Hfresh.
Qed.

(** X10: adding a name that already is a token of a non-empty value and
    then removing it panics: the name then stands at the end and before
    it. Adding "x" twice and removing "x" is the smallest case. *)
Theorem Add_existing_then_Remove_panics c name (p : HsStr) :
  ProductNames c = Some p -> p <> "" ->
  name ∈ Split p semicolon ->
  exists pn, RemoveProductName (AddProductName c name) name = Panic pn.
Proof.
  intros Hp Hne Hin.
  pose proof (Split_token_single p name semicolon Hin) as Hname.
  rewrite AddProductName_value, Hp, decide_False by exact Hne.
  apply list_elem_of_split_l in Hin as (l1 & l3 & Hsplit & Hl1).
  apply (RemoveProductName_repeated_last_panics _ name
           (p +:+ ";" +:+ name) l1 l3); [reflexivity| |exact Hl1].
  etrans; [apply (Split_app p name semicolon)|].
  rewrite Hsplit, Hname. now rewrite <- app_assoc.
Qed.

(** *** The name standing twice *)

(** The loop passes over a stretch [Y] of the array that holds no name. *)
Lemma range_loop_skip_segment name (n lo k : nat) (b X Y Z : list string)
    (tmp : Slice.slice) :
  b = X ++ Y ++ Z -> n = length b -> lo = length X -> k = length Y ->
  name ∉ Y ->
  range_loop name (Slice.mkSlice 0 0 n) (seq lo k) ([b], tmp) = Ret ([b], tmp).
Proof.
  intros -> -> -> -> HY. apply range_loop_skip.
  apply Forall_forall. intros i Hi%elem_of_seq.
  cbn [fst]. rewrite elems_whole.
  rewrite lookup_app_r by lia. rewrite lookup_app_l by lia.
  destruct (lookup_lt_is_Some_2 Y (i - length X)) as [v Hv]; [lia|].
  exists v. split; [exact Hv|]. intros ->.
  apply HY. eapply list_elem_of_lookup_2, Hv.
Qed.

(** The loop meets the name at index [length P] while the slice shows
    [P ++ name :: L' ++ [z]] and [R] lies behind it: the slice then shows
    [P ++ L' ++ [z]], and the place it gave up keeps [z]. *)
Lemma range_loop_cut name (n m : nat) (b P L' R : list string) (z : string)
    (idxs : list nat) :
  b = P ++ name :: (L' ++ [z]) ++ R -> n = length b ->
  m = length P + length L' + 2 ->
  range_loop name (Slice.mkSlice 0 0 n) (length P :: idxs)
    ([b], Slice.mkSlice 0 0 m) =
  range_loop name (Slice.mkSlice 0 0 n) idxs
    ([P ++ (L' ++ [z]) ++ z :: R],
     Slice.mkSlice 0 0 (length P + length L' + 1)).
Proof.
  intros Hb -> ->. cbn [range_loop fst]. rewrite elems_whole.
  assert (Hlen : length b = length P + length L' + 2 + length R).
  { subst b. rewrite !length_app. simpl. rewrite !length_app. simpl. lia. }
  assert (Hat : b !! length P = Some name).
  { subst b. now apply list_lookup_middle. }
  rewrite Hat, decide_True by reflexivity.
  rewrite cut_inside by lia. cbn [obind].
  replace (length P + length L' + 2 - 1) with (length P + length L' + 1)
    by lia.
  replace (length P + length L' + 2 - (length P + 1)) with (length (L' ++ [z]))
    by (rewrite length_app; simpl; lia).
  do 3 f_equal. subst b. f_equal; [apply take_app_length|].
  rewrite drop_app_ge by lia.
  replace (length P + 1 - length P) with 1 by lia. cbn [drop].
  rewrite drop_0, take_app_length. f_equal.
  replace (P ++ name :: (L' ++ [z]) ++ R) with ((P ++ name :: L') ++ z :: R)
    by (rewrite <- !app_assoc; reflexivity).
  apply drop_app_length'. rewrite length_app. simpl. lia.
Qed.

Lemma range_loop_app_Ret name rng (idxs1 idxs2 : list nat)
    (st st1 : loop_state) :
  range_loop name rng idxs1 st = Ret st1 ->
  range_loop name rng (idxs1 ++ idxs2) st = range_loop name rng idxs2 st1.
Proof. intros H. now rewrite range_loop_app, H. Qed.

Local Ltac list_length :=
  repeat (rewrite ?length_app; cbn [length]); lia.

Local Ltac list_assoc :=
  rewrite ?app_nil_r;
  repeat first [rewrite <- !app_assoc | progress cbn [app]]; reflexivity.

(** X5: when the name stands twice side by side, and nowhere else, and
    other tokens follow, the first of the two is taken out and the second
    stays. *)
Theorem RemoveProductName_adjacent_duplicate c name (p : HsStr)
    (l1 l2 : list string) :
  ProductNames c = Some p ->
  Split p semicolon = l1 ++ name :: name :: l2 ->
  name ∉ l1 -> name ∉ l2 -> l2 <> [] ->
  RemoveProductName c name =
  Ret (set_ProductNames c (Some (Join (l1 ++ name :: l2) ";"))).
Proof.
  intros Hp Hsplit Hl1 Hl2 Hne.
  destruct l2 as [|z l2' _] using rev_ind; [congruence|]. clear Hne.
  apply not_elem_of_app in Hl2 as [Hl2' Hz].
  unfold RemoveProductName, HsStr_String, Slice.alloc. rewrite Hp, Hsplit.
  cbn [app length Slice.len].
  set (a := l1 ++ name :: name :: l2' ++ [z]).
  assert (Hn : length a = length l1 + length l2' + 3)
    by (subst a; list_length).
  replace (seq 0 (length a))
    with (seq 0 (length l1) ++
          length l1 :: seq (length l1 + 1) (length l2' + 2)).
  2:{ rewrite Hn.
      replace (length l1 + length l2' + 3)
        with (length l1 + (1 + (length l2' + 2))) by lia.
      rewrite !seq_app. reflexivity. }
  erewrite range_loop_app_Ret.
  2:{ apply (range_loop_skip_segment name _ _ _ a [] l1
               (name :: name :: l2' ++ [z])); try reflexivity; assumption. }
  erewrite (range_loop_cut name _ _ a l1 (name :: l2') [] z).
  2:{ subst a. now rewrite app_nil_r. }
  2:{ reflexivity. }
  2:{ rewrite Hn. cbn [length]. lia. }
  erewrite (range_loop_skip_segment name _ _ _ _
              (l1 ++ [name]) (l2' ++ [z; z]) []).
  2:{ list_assoc. }
  2:{ rewrite Hn. list_length. }
  2:{ list_length. }
  2:{ list_length. }
  2:{ rewrite not_elem_of_app, !not_elem_of_cons. repeat split; try assumption.
      - intros ->. apply Hz, list_elem_of_here.
      - intros ->. apply Hz, list_elem_of_here.
      - apply not_elem_of_nil. }
  cbn [obind Slice.len]. rewrite decide_False by (cbn [length]; lia).
  rewrite elems_prefix. unfold NewString. do 4 f_equal.
  replace (l1 ++ ((name :: l2') ++ [z]) ++ [z])
    with ((l1 ++ name :: l2' ++ [z]) ++ [z])
    by list_assoc.
  apply take_app_length'. list_length.
Qed.

(** X6: when the name stands twice with other tokens in between, and
    nowhere else, and other tokens follow, both are taken out. *)
Theorem RemoveProductName_separated_duplicates c name (p : HsStr)
    (l1 l2 l3 : list string) :
  ProductNames c = Some p ->
  Split p semicolon = l1 ++ name :: l2 ++ name :: l3 ->
  name ∉ l1 -> name ∉ l2 -> name ∉ l3 -> l2 <> [] -> l3 <> [] ->
  RemoveProductName c name =
  Ret (set_ProductNames c (Some (Join (l1 ++ l2 ++ l3) ";"))).
Proof.
  intros Hp Hsplit Hl1 Hl2 Hl3 Hne2 Hne3.
  destruct l3 as [|z l3' _] using rev_ind; [congruence|]. clear Hne3.
  destruct l2 as [|y l2']; [congruence|]. clear Hne2.
  apply not_elem_of_app in Hl3 as [Hl3' Hz].
  apply not_elem_of_cons in Hl2 as [Hy Hl2'].
  assert (Hz' : z <> name).
  { intros ->. apply Hz, list_elem_of_here. }
  unfold RemoveProductName, HsStr_String, Slice.alloc. rewrite Hp, Hsplit.
  cbn [app length Slice.len].
  set (a := l1 ++ name :: y :: l2' ++ name :: l3' ++ [z]).
  assert (Hn : length a = length l1 + length l2' + length l3' + 4)
    by (subst a; list_length).
  replace (seq 0 (length a))
    with (seq 0 (length l1) ++
          length l1 ::
          seq (length l1 + 1) (length l2') ++
          length (l1 ++ y :: l2') ::
          seq (length l1 + length l2' + 2) (length l3' + 2)).
  2:{ rewrite Hn.
      replace (length l1 + length l2' + length l3' + 4)
        with (length l1 + (1 + (length l2' + (1 + (length l3' + 2)))))
        by lia.
      rewrite !seq_app. cbn [seq app].
      repeat first [list_length | f_equal]. }
  erewrite range_loop_app_Ret.
  2:{ apply (range_loop_skip_segment name _ _ _ a [] l1
               (name :: y :: l2' ++ name :: l3' ++ [z]));
        try reflexivity; assumption. }
  erewrite (range_loop_cut name _ _ a l1 (y :: l2' ++ name :: l3') [] z).
  2:{ subst a. list_assoc. }
  2:{ reflexivity. }
  2:{ rewrite Hn. list_length. }
  erewrite range_loop_app_Ret.
  2:{ apply (range_loop_skip_segment name _ _ _ _
               (l1 ++ [y]) l2' (name :: l3' ++ [z; z])).
      - list_assoc.
      - rewrite Hn. list_length.
      - list_length.
      - reflexivity.
      - assumption. }
  erewrite (range_loop_cut name _ _ _ (l1 ++ y :: l2') l3' [z] z).
  2:{ list_assoc. }
  2:{ rewrite Hn. list_length. }
  2:{ list_length. }
  assert (Hrest :
    range_loop name (Slice.mkSlice 0 0 (length a))
      (seq (length l1 + length l2' + 2) (length l3' + 2))
      ([(l1 ++ y :: l2') ++ (l3' ++ [z]) ++ [z; z]],
       Slice.mkSlice 0 0 (length (l1 ++ y :: l2') + length l3' + 1)) =
    Ret ([(l1 ++ y :: l2') ++ (l3' ++ [z]) ++ [z; z]],
         Slice.mkSlice 0 0 (length (l1 ++ y :: l2') + length l3' + 1))).
  { destruct l3' as [|e t].
    - apply (range_loop_skip_segment name _ _ _ _
               ((l1 ++ y :: l2') ++ [z]) [z; z] []).
      + list_assoc.
      + rewrite Hn. list_length.
      + list_length.
      + list_length.
      + rewrite !not_elem_of_cons.
        repeat split; solve [congruence | apply not_elem_of_nil].
    - apply not_elem_of_cons in Hl3' as [He Ht].
      apply (range_loop_skip_segment name _ _ _ _
               ((l1 ++ y :: l2') ++ [e]) (t ++ [z; z; z]) []).
      + list_assoc.
      + rewrite Hn. list_length.
      + list_length.
      + list_length.
      + rewrite not_elem_of_app, !not_elem_of_cons.
        repeat split; solve [assumption | congruence | apply not_elem_of_nil]. }
  rewrite Hrest. clear Hrest.
  cbn [obind Slice.len]. rewrite decide_False by list_length.
  rewrite elems_prefix. unfold NewString. do 4 f_equal.
  replace ((l1 ++ y :: l2') ++ (l3' ++ [z]) ++ [z; z])
    with ((l1 ++ (y :: l2') ++ l3' ++ [z]) ++ [z; z]) by list_assoc.
  apply take_app_length'. list_length.
Qed.

(** In a [shortened] state a cut before the last index can fail in one
    way only: the slice behind the index starts above the length. *)
Lemma cut_shortened_bounds (n : nat) name (st : loop_state) (i : nat) :
  shortened n name st -> i < n - 1 ->
  match cut st i with
  | Ret st' => shortened n name st'
  | Panic pn => bounds_panic pn
  end.
Proof.
  intros Hst Hi.
  pose proof (cut_shortened n name st i Hst Hi) as Hkeep.
  destruct Hst as (b & m & -> & Hlen & Hlast & Hm).
  revert Hkeep.
  unfold cut, Slice.slice_to, Slice.slice_from, Slice.reslice, Slice.cap,
    Slice.array_of. simpl.
  rewrite !Nat.sub_0_r, Hlen, !decide_True by lia. simpl.
  case_decide as Hlo; [tauto|]. intros _. simpl.
  exists (i + 1), m. split; [reflexivity | lia].
Qed.

Lemma range_loop_shortened_bounds (n : nat) name (idxs : list nat)
    (st : loop_state) :
  shortened n name st ->
  Forall (fun i => i < n - 1) idxs ->
  match range_loop name (Slice.mkSlice 0 0 n) idxs st with
  | Ret st' => shortened n name st'
  | Panic pn => bounds_panic pn
  end.
Proof.
  intros Hst Hidxs. revert st Hst.
  induction Hidxs as [|i idxs Hi _ IH]; intros st Hst; [exact Hst|].
  pose proof (cut_shortened_bounds n name st i Hst Hi) as Hcut.
  destruct Hst as (b & m & -> & Hlen & Hlast & Hm).
  assert (Hview : Slice.elems [b] (Slice.mkSlice 0 0 n) = b).
  { rewrite <- Hlen. apply elems_whole. }
  cbn [range_loop fst]. rewrite Hview.
  destruct (lookup_lt_is_Some_2 b i) as [v Hv]; [lia|]. rewrite Hv.
  case_decide.
  - destruct (cut _ i) as [st'|pn]; [|exact Hcut]. now apply IH.
  - apply IH. now exists b, m.
Qed.

(** When the name is the last token and also stands before it, the panic
    is the one of the slice expression [tmpProductNames[i+1:]]. *)
Lemma RemoveProductName_repeated_last_bounds c name (p : HsStr)
    (l1 l3 : list string) :
  ProductNames c = Some p ->
  Split p semicolon = l1 ++ name :: l3 ++ [name] ->
  name ∉ l1 ->
  exists pn, RemoveProductName c name = Panic pn /\ bounds_panic pn.
Proof.
  intros Hp Hsplit Hl1.
  unfold RemoveProductName, HsStr_String, Slice.alloc. rewrite Hp, Hsplit.
  cbn [app length Slice.len].
  set (l2 := l3 ++ [name]).
  set (a := l1 ++ name :: l2).
  assert (Hl2 : length l2 = length l3 + 1) by (subst l2; list_length).
  assert (Hn : length a = length l1 + length l3 + 2)
    by (subst a; rewrite length_app; cbn [length]; lia).
  replace (seq 0 (length a))
    with (seq 0 (length l1) ++
          length l1 :: seq (S (length l1)) (length l3) ++ [length a - 1]).
  2:{ rewrite Hn.
      replace (length l1 + length l3 + 2)
        with (length l1 + (1 + (length l3 + 1))) by lia.
      rewrite !seq_app. cbn [seq app].
      repeat first [list_length | f_equal]. }
  erewrite range_loop_app_Ret.
  2:{ apply (range_loop_skip_segment name _ _ _ a [] l1 (name :: l2));
        try reflexivity; assumption. }
  cbn [range_loop fst]. rewrite elems_whole. unfold a at 1.
  rewrite list_lookup_middle by reflexivity.
  rewrite decide_True by reflexivity.
  unfold a at 1 2. rewrite cut_whole. cbn [obind].
  rewrite range_loop_app.
  match goal with
  | |- context [range_loop name ?rng (seq ?i ?k) ?st] =>
      pose proof (range_loop_shortened_bounds (length a) name (seq i k) st)
        as Hloop;
      set (mid := range_loop name rng (seq i k) st) in *
  end.
  assert (Hmid : match mid with
                 | Ret st' => shortened (length a) name st'
                 | Panic pn => bounds_panic pn
                 end).
  { apply Hloop.
    - exists (l1 ++ l2 ++ drop (length l1 + length l2) (l1 ++ name :: l2)).
      exists (length l1 + length l2). split; [reflexivity|].
      fold a. rewrite !length_app, length_drop, Hn, Hl2.
      split; [lia|]. split; [|lia].
      rewrite lookup_app_r by lia. rewrite lookup_app_r by lia.
      rewrite lookup_drop. unfold a.
      rewrite lookup_app_r by lia.
      replace (length l1 + (length l3 + 1) +
               (length l1 + length l3 + 2 - 1 - length l1 - length l2)
               - length l1)
        with (S (length l3)) by lia.
      simpl. subst l2. now rewrite list_lookup_middle.
    - apply Forall_forall. intros i Hi%elem_of_seq. lia. }
  clear Hloop. destruct mid as [st'|pn]; [|now exists pn].
  destruct Hmid as (b & m & -> & Hlen & Hlast & Hm).
  cbn [obind range_loop fst].
  assert (Hview : Slice.elems [b] (Slice.mkSlice 0 0 (length a)) = b).
  { rewrite <- Hlen. apply elems_whole. }
  rewrite Hview, Hlast, decide_True by reflexivity.
  unfold cut, Slice.slice_to, Slice.slice_from, Slice.reslice, Slice.cap,
    Slice.array_of. simpl.
  rewrite !Nat.sub_0_r, Hlen, !decide_True by lia. simpl.
  rewrite decide_False by lia. simpl.
  eexists. split; [reflexivity|].
  eexists _, _. split; [reflexivity | lia].
Qed.

(** X3: the exact condition under which [RemoveProductName] panics: the
    name is the last token and also stands before it. In every other case
    the call returns. Whenever it panics, the panic is slice bounds out of
    range [lo:hi] with the lower bound above the upper one, raised by the
    slice expression behind the matched index. *)
Theorem RemoveProductName_panics_iff c name :
  ((exists pn, RemoveProductName c name = Panic pn) <->
   (exists (p : HsStr) l1 l3,
       ProductNames c = Some p /\
       Split p semicolon = l1 ++ name :: l3 ++ [name])) /\
  (forall pn,
      RemoveProductName c name = Panic pn ->
      exists lo hi, pn = SliceBoundsOutOfRange lo hi /\ hi < lo).
Proof.
  assert (Hshape : forall pn,
    RemoveProductName c name = Panic pn ->
    exists (p : HsStr) l1 l3,
      ProductNames c = Some p /\
      Split p semicolon = l1 ++ name :: l3 ++ [name] /\ name ∉ l1).
  { intros pn Hpanic.
    destruct (ProductNames c) as [p|] eqn:Hp.
    2:{ rewrite RemoveProductName_absent in Hpanic by exact Hp.
        discriminate. }
    destruct (tokens_cases (Split p semicolon) name (Split_not_nil _ _))
      as [(l & y & Hsplit & Hy)|[(l & Hsplit & Hl)|(l1 & l3 & Hsplit & Hl1)]].
    - destruct (RemoveProductName_last_differs c name p l y Hp Hsplit Hy)
        as [v Hv]. congruence.
    - rewrite (RemoveProductName_single_occurrence c name p l [])
        in Hpanic by (assumption || apply not_elem_of_nil).
      discriminate.
    - exists p, l1, l3. auto. }
  split; [split|].
  - intros [pn Hpanic].
    destruct (Hshape pn Hpanic) as (p & l1 & l3 & Hp & Hsplit & _). eauto.
  - intros (p & l1 & l3 & Hp & Hsplit).
    assert (Hin : name ∈ l1 ++ name :: l3).
    { apply elem_of_app. right. apply list_elem_of_here. }
    apply list_elem_of_split_l in Hin as (l1' & l3' & Heq & Hl1').
    apply (RemoveProductName_repeated_last_panics c name p l1' l3' Hp);
      [|exact Hl1'].
    rewrite Hsplit.
    change (l1 ++ name :: l3 ++ [name]) with (l1 ++ (name :: l3) ++ [name]).
    rewrite app_assoc, Heq, <- app_assoc. reflexivity.
  - intros pn Hpanic.
    destruct (Hshape pn Hpanic) as (p & l1 & l3 & Hp & Hsplit & Hl1).
    destruct (RemoveProductName_repeated_last_bounds c name p l1 l3
                Hp Hsplit Hl1) as (pn' & Hpn' & Hbounds).
    rewrite Hpanic in Hpn'. injection Hpn' as ->. exact Hbounds.
Qed.

(** Splitting what was joined from tokens without separator gives the
    tokens back. *)
Lemma Split_Join (toks : list string) :
  toks <> [] ->
  Forall (fun t => Split t semicolon = [t]) toks ->
  Split (Join toks ";") semicolon = toks.
Proof.
  intros Hne Htoks. induction Htoks as [|t rest Ht _ IH]; [congruence|].
  destruct rest as [|t' rest]; [exact Ht|].
  rewrite Join_cons by discriminate.
  etrans; [apply (Split_app t (Join (t' :: rest) ";") semicolon)|].
  rewrite Ht, IH by discriminate. reflexivity.
Qed.

(** X13: once a name that stood among the tokens exactly once has been
    removed, removing it again changes nothing. *)
Theorem RemoveProductName_twice c name (p : HsStr) (l1 l2 : list string) :
  ProductNames c = Some p ->
  Split p semicolon = l1 ++ name :: l2 ->
  name ∉ l1 -> name ∉ l2 ->
  exists c' : Company HsTime,
    RemoveProductName c name = Ret c' /\
    RemoveProductName c' name = Ret c'.
Proof.
  intros Hp Hsplit Hl1 Hl2.
  eexists. split;
    [apply (RemoveProductName_single_occurrence c name p l1 l2);
       assumption|].
  destruct (l1 ++ l2) as [|t rest] eqn:Hrest.
  - now apply RemoveProductName_absent.
  - assert (Hsp : Split (Join (l1 ++ l2) ";") semicolon = l1 ++ l2).
    { apply Split_Join; [rewrite Hrest; discriminate|].
      apply Forall_forall. intros tok Htok.
      apply (Split_token_single p tok semicolon). rewrite Hsplit.
      apply elem_of_app in Htok as [Htok|Htok]; apply elem_of_app;
        [now left | right; now apply list_elem_of_further]. }
    rewrite <- Hrest.
    rewrite (RemoveProductName_no_occurrence _ name (Join (l1 ++ l2) ";")).
    + reflexivity.
    + reflexivity.
    + rewrite Hsp. now apply not_elem_of_app.
Qed.

End ProductNameTokens.

(** ** The service operations *)

Section ServiceProperties.

Context {Any HsTime QueryExtras SearchOption Cursor Error World : Type}.

Abbreviation Service :=
  (CompanyServiceOp Any HsTime QueryExtras SearchOption Cursor Error World).
Abbreviation State := (state Any HsTime QueryExtras SearchOption Cursor World).
Abbreviation QueryOption := (@RequestQueryOption QueryExtras).

Implicit Types (s : Service) (st : State) (o : QueryOption)
  (company : @iface Any) (companyID : string).

Lemma finish_error {k} (r : @reply Any HsTime Cursor Error k) (e : Error) :
  r.2 = Some e -> finish r = (None, Some e).
Proof. unfold finish. now intros ->. Qed.

Lemma finish_ok {k} (r : @reply Any HsTime Cursor Error k) :
  r.2 = None -> finish r = (Some r.1, None).
Proof. unfold finish. now intros ->. Qed.

(** Each transport method makes one call and hands back what the client
    answers in the current world. *)
Lemma doGet_issues s k path (resource : envelope k) o st :
  let rw := clientGet (client s) k path resource o (world st) in
  issues (doGet s path resource o) st (CallGet path k resource o) rw.1 rw.2.
Proof.
  unfold issues, doGet, record_call.
  now destruct (clientGet _ _ _ _ _ _) as [r w].
Qed.

Lemma doPost_issues s k path data (resource : envelope k) st :
  let rw := clientPost (client s) k path data resource (world st) in
  issues (doPost s path data resource) st (CallPost path data k resource)
    rw.1 rw.2.
Proof.
  unfold issues, doPost, record_call.
  now destruct (clientPost _ _ _ _ _ _) as [r w].
Qed.

Lemma doPatch_issues s k path data (resource : envelope k) st :
  let rw := clientPatch (client s) k path data resource (world st) in
  issues (doPatch s path data resource) st (CallPatch path data k resource)
    rw.1 rw.2.
Proof.
  unfold issues, doPatch, record_call.
  now destruct (clientPatch _ _ _ _ _ _) as [r w].
Qed.

Lemma doDelete_issues s path st :
  let ew := clientDelete (client s) path (world st) in
  issues (doDelete s path) st (CallDelete path) ew.1 ew.2.
Proof.
  unfold issues, doDelete, record_call.
  now destruct (clientDelete _ _ _) as [e w].
Qed.

(** Post-processing the answer of a call neither adds nor drops calls. *)
Lemma issues_bind_ret {A B} (m : M A) (f : A -> B) st c a w :
  issues m st c a w ->
  issues (run x <- m; ret (f x)) st c (f a) w.
Proof. unfold issues, bind, ret. now intros ->. Qed.

Lemma issues_inj {A} (m : M A) st c c' (a a' : A) w w' :
  issues m st c a w -> issues m st c' a' w' -> c = c' /\ a = a' /\ w = w'.
Proof.
  unfold issues. intros -> [= Ha Hw Hc].
  apply app_inv_head in Hc. now inversion Hc.
Qed.

Lemma issues_finish {k} (m : M (@reply Any HsTime Cursor Error k)) st c r w :
  issues m st c r w ->
  issues (run x <- m; ret (finish x)) st c (finish r) w.
Proof. apply (issues_bind_ret m finish). Qed.

(** Reading through a non-nil pointer goes on with the value behind it. *)
Lemma issues_deref {A B} (a : A) (f : A -> M B) st c b w :
  issues (f a) st c b w ->
  issues (run x <- deref (Some a); f x) st c b w.
Proof. intros H. exact H. Qed.

(** What each operation does with a non-nil option. *)
Lemma Get_plain s companyID company o st :
  Associations o = [] ->
  let path := companyPath s +:+ "/" +:+ companyID in
  let query := setupProperties o defaultCompanyFields in
  let rw := clientGet (client s) Single path (newResource company) query
              (world st) in
  issues (Get s companyID company (Some o)) st
    (CallGet path Single (newResource company) query) (finish rw.1) rw.2.
Proof.
  intros Hassoc. cbv zeta. unfold Get.
  apply issues_deref. rewrite Hassoc.
  apply (issues_finish (k := Single)), doGet_issues.
Qed.

Lemma Get_association s companyID company o association rest st :
  Associations o = association :: rest ->
  let path :=
    (companyPath s +:+ "/" +:+ companyID) +:+ "/associations/" +:+ association in
  let query := setupProperties o defaultCompanyFields in
  let rw := clientGet (client s) Single path (newResource None) query
              (world st) in
  issues (Get s companyID company (Some o)) st
    (CallGet path Single (newResource None) query) (finish rw.1) rw.2.
Proof.
  intros Hassoc. cbv zeta. unfold Get.
  apply issues_deref. rewrite Hassoc.
  apply (issues_finish (k := Single)), doGet_issues.
Qed.

Lemma GetAll_run s company o st :
  let query :=
    match Properties o with
    | [] => setupProperties o defaultCompanyFields
    | _ :: _ => o
    end in
  let rw := clientGet (client s) Multi (companyPath s) (newMulti []) query
              (world st) in
  issues (GetAll s company (Some o)) st
    (CallGet (companyPath s) Multi (newMulti []) query) (finish rw.1) rw.2.
Proof.
  cbv zeta. unfold GetAll.
  apply issues_deref.
  apply (issues_finish (k := Multi)), doGet_issues.
Qed.

Lemma Search_run s company (option : option SearchOption) st :
  let path := companyPath s +:+ "/search" in
  let resource := newMulti [newResource company] in
  let rw := clientPost (client s) Multi path (BodySearch option) resource
              (world st) in
  issues (Search s company option) st
    (CallPost path (BodySearch option) Multi resource) (finish rw.1) rw.2.
Proof.
  cbv zeta. unfold Search.
  apply (issues_finish (k := Multi)), doPost_issues.
Qed.

Lemma Create_run s company st :
  let req := BodyPayload {| payloadProperties := company |} in
  let rw := clientPost (client s) Single (companyPath s) req
              (newResource company) (world st) in
  issues (Create s company) st
    (CallPost (companyPath s) req Single (newResource company))
    (finish rw.1) rw.2.
Proof.
  cbv zeta. unfold Create.
  apply (issues_finish (k := Single)), doPost_issues.
Qed.

Lemma Update_run s companyID company st :
  let path := companyPath s +:+ "/" +:+ companyID in
  let req := BodyPayload {| payloadProperties := company |} in
  let rw := clientPatch (client s) Single path req (newResource company)
              (world st) in
  issues (Update s companyID company) st
    (CallPatch path req Single (newResource company)) (finish rw.1) rw.2.
Proof.
  cbv zeta. unfold Update.
  apply (issues_finish (k := Single)), doPatch_issues.
Qed.

Lemma Delete_run s companyID st :
  let path := companyPath s +:+ "/" +:+ companyID in
  let ew := clientDelete (client s) path (world st) in
  issues (Delete s companyID) st (CallDelete path) ew.1 ew.2.
Proof.
  cbv zeta. unfold Delete.
  pose proof (doDelete_issues s (companyPath s +:+ "/" +:+ companyID) st) as H.
  cbv zeta in H. unfold issues, bind in *. rewrite H.
  now destruct (clientDelete _ _ _).1.
Qed.

Lemma finish_propagates {k} (r : @reply Any HsTime Cursor Error k) :
  propagates r.2 r.1 (finish r).
Proof. split; [apply finish_error | apply finish_ok]. Qed.

Lemma Get_issues_one s companyID company o st :
  exists path resource res w,
    issues (Get s companyID company (Some o)) st
      (CallGet path Single resource (setupProperties o defaultCompanyFields))
      res w.
Proof.
  destruct (Associations o) as [|association rest] eqn:Hassoc.
  - pose proof (Get_plain s companyID company o st Hassoc) as H.
    cbv zeta in H. do 4 eexists. exact H.
  - pose proof (Get_association s companyID company o _ _ st Hassoc) as H.
    cbv zeta in H. do 4 eexists. exact H.
Qed.

(** C2: [setupProperties] on an option with an empty property list gives
    exactly the default list, in order; on a non-empty list it gives the
    option back unchanged, with no merging. [Get] always sends the result
    of the substitution, and [GetAll] sends a query with the defaults when
    the caller's list is empty and the caller's own option otherwise. *)
Theorem setupProperties_default_substitution o (defaults : list string) :
  (Properties o = [] -> Properties (setupProperties o defaults) = defaults) /\
  (Properties o <> [] -> setupProperties o defaults = o) /\
  (forall s companyID company st,
      exists path resource res w,
        issues (Get s companyID company (Some o)) st
          (CallGet path Single resource
             (setupProperties o defaultCompanyFields)) res w) /\
  (forall s company st,
      exists query res w,
        issues (GetAll s company (Some o)) st
          (CallGet (companyPath s) Multi (newMulti []) query) res w /\
        (Properties o = [] -> Properties query = defaultCompanyFields) /\
        (Properties o <> [] -> query = o)).
Proof.
  split; [|split; [|split]].
  - unfold setupProperties. now intros ->.
  - unfold setupProperties. now destruct (Properties o).
  - intros. apply Get_issues_one.
  - intros. do 3 eexists. split; [apply GetAll_run|].
    unfold setupProperties.
    destruct (Properties o); split; intros; simpl; congruence.
Qed.

(** C4: with an empty association list [Get] makes one GET call to
    [companies/{id}], and the envelope it hands to the transport has the
    caller's structure as properties target; with a non-empty list it
    makes one GET call to [companies/{id}/associations/{first}], for the
    first association type only, and the envelope carries no properties
    target. In both cases the world is left as the client left it, and the
    result is the client's error with no resource, or the envelope as the
    client filled it with no error. *)
Theorem Get_request_shape s companyID company o st :
  companyPath s = companyBasePath ->
  (Associations o = [] ->
   let path := "companies/" +:+ companyID in
   let query := setupProperties o defaultCompanyFields in
   let rw := clientGet (client s) Single path (newResource company) query
               (world st) in
   exists res,
     issues (Get s companyID company (Some o)) st
       (CallGet path Single (newResource company) query) res rw.2 /\
     propagates rw.1.2 rw.1.1 res) /\
  (forall association rest,
     Associations o = association :: rest ->
     let path :=
       "companies/" +:+ companyID +:+ "/associations/" +:+ association in
     let query := setupProperties o defaultCompanyFields in
     let rw := clientGet (client s) Single path (newResource None) query
                 (world st) in
     exists res,
       issues (Get s companyID company (Some o)) st
         (CallGet path Single (newResource None) query) res rw.2 /\
       propagates rw.1.2 rw.1.1 res) /\
  resourceProperties (@newResource Any HsTime company) = company /\
  resourceProperties (@newResource Any HsTime None) = None.
Proof.
  intros Hpath. split; [|split; [|split; reflexivity]].
  - intros Hassoc. cbv zeta. eexists. split.
    + pose proof (Get_plain s companyID company o st Hassoc) as H.
      cbv zeta in H. rewrite Hpath in H. exact H.
    + apply (finish_propagates (k := Single)).
  - intros association rest Hassoc. cbv zeta. eexists. split.
    + pose proof (Get_association s companyID company o _ _ st Hassoc) as H.
      cbv zeta in H. rewrite Hpath in H.
      change (companyBasePath +:+ "/" +:+ companyID)
        with ("companies/" +:+ companyID) in H.
      rewrite append_assoc in H. exact H.
    + apply (finish_propagates (k := Single)).
Qed.

(** C5: [Search] makes one POST to [companies/search] whose body is the
    search option as the caller gave it, with no default-field
    substitution, and whose response target is a multi-result envelope;
    on success that envelope is what it returns. *)
Theorem Search_request_shape s company (option : option SearchOption) st :
  companyPath s = companyBasePath ->
  let resource := newMulti [newResource company] in
  let rw := clientPost (client s) Multi "companies/search" (BodySearch option)
              resource (world st) in
  exists res,
    issues (Search s company option) st
      (CallPost "companies/search" (BodySearch option) Multi resource)
      res rw.2 /\
    propagates rw.1.2 rw.1.1 res.
Proof.
  intros Hpath. cbv zeta. eexists. split.
  - pose proof (Search_run s company option st) as H.
    cbv zeta in H. rewrite Hpath in H. exact H.
  - apply (finish_propagates (k := Multi)).
Qed.

(** C6: [Create] POSTs to the base path and [Update] PATCHes
    [companies/{id}]; in both the caller's structure is the "properties"
    field of the request payload as it was given, and the same structure is
    the properties target of the response envelope handed to that one
    transport call, whose envelope is returned on success. *)
Theorem Create_Update_share_structure s companyID company st :
  companyPath s = companyBasePath ->
  (exists req resource res,
     let rw := clientPost (client s) Single "companies" (BodyPayload req)
                 resource (world st) in
     issues (Create s company) st
       (CallPost "companies" (BodyPayload req) Single resource) res rw.2 /\
     payloadProperties req = company /\
     resourceProperties resource = company /\
     (rw.1.2 = None -> res = (Some rw.1.1, None))) /\
  (exists req resource res,
     let rw := clientPatch (client s) Single ("companies/" +:+ companyID)
                 (BodyPayload req) resource (world st) in
     issues (Update s companyID company) st
       (CallPatch ("companies/" +:+ companyID) (BodyPayload req) Single
          resource) res rw.2 /\
     payloadProperties req = company /\
     resourceProperties resource = company /\
     (rw.1.2 = None -> res = (Some rw.1.1, None))).
Proof.
  intros Hpath. split.
  - exists {| payloadProperties := company |}, (newResource company).
    eexists. cbv zeta. split; [|split; [reflexivity|split; [reflexivity|]]].
    + pose proof (Create_run s company st) as H.
      cbv zeta in H. rewrite Hpath in H. exact H.
    + apply (finish_ok (k := Single)).
  - exists {| payloadProperties := company |}, (newResource company).
    eexists. cbv zeta. split; [|split; [reflexivity|split; [reflexivity|]]].
    + pose proof (Update_run s companyID company st) as H.
      cbv zeta in H. rewrite Hpath in H. exact H.
    + apply (finish_ok (k := Single)).
Qed.

(** C7: each operation, given a non-nil option where it takes one, makes
    exactly one transport call; when that call fails the operation returns
    the very error of the transport and no resource, and when it succeeds
    the operation returns the envelope it had built, as the transport left
    it, and no error. [Delete] returns the transport's error, or nil, as it
    is. *)
Theorem transport_outcome_is_propagated s companyID company o
    (option : option SearchOption) st :
  (exists path resource query res,
     let rw := clientGet (client s) Single path resource query (world st) in
     issues (Get s companyID company (Some o)) st
       (CallGet path Single resource query) res rw.2 /\
     propagates rw.1.2 rw.1.1 res) /\
  (exists path resource query res,
     let rw := clientGet (client s) Multi path resource query (world st) in
     issues (GetAll s company (Some o)) st
       (CallGet path Multi resource query) res rw.2 /\
     propagates rw.1.2 rw.1.1 res) /\
  (exists path data resource res,
     let rw := clientPost (client s) Multi path data resource (world st) in
     issues (Search s company option) st
       (CallPost path data Multi resource) res rw.2 /\
     propagates rw.1.2 rw.1.1 res) /\
  (exists path data resource res,
     let rw := clientPost (client s) Single path data resource (world st) in
     issues (Create s company) st
       (CallPost path data Single resource) res rw.2 /\
     propagates rw.1.2 rw.1.1 res) /\
  (exists path data resource res,
     let rw := clientPatch (client s) Single path data resource (world st) in
     issues (Update s companyID company) st
       (CallPatch path data Single resource) res rw.2 /\
     propagates rw.1.2 rw.1.1 res) /\
  (exists path,
     let ew := clientDelete (client s) path (world st) in
     issues (Delete s companyID) st (CallDelete path) ew.1 ew.2).
Proof.
  repeat split.
  - destruct (Associations o) as [|association rest] eqn:Hassoc.
    + pose proof (Get_plain s companyID company o st Hassoc) as H.
      cbv zeta in H. do 4 eexists. cbv zeta.
      split; [exact H | apply (finish_propagates (k := Single))].
    + pose proof (Get_association s companyID company o _ _ st Hassoc) as H.
      cbv zeta in H. do 4 eexists. cbv zeta.
      split; [exact H | apply (finish_propagates (k := Single))].
  - pose proof (GetAll_run s company o st) as H.
    cbv zeta in H. do 4 eexists. cbv zeta.
    split; [exact H | apply (finish_propagates (k := Multi))].
  - pose proof (Search_run s company option st) as H.
    cbv zeta in H. do 4 eexists. cbv zeta.
    split; [exact H | apply (finish_propagates (k := Multi))].
  - pose proof (Create_run s company st) as H.
    cbv zeta in H. do 4 eexists. cbv zeta.
    split; [exact H | apply (finish_propagates (k := Single))].
  - pose proof (Update_run s companyID company st) as H.
    cbv zeta in H. do 4 eexists. cbv zeta.
    split; [exact H | apply (finish_propagates (k := Single))].
  - eexists. apply Delete_run.
Qed.

(** C8: the default field list of Company is the fifteen names below, in
    this order, and it is the property list of the query that [Get] and
    [GetAll] send when the caller's property list is empty. *)
Theorem defaultCompanyFields_fifteen_names :
  defaultCompanyFields =
    [ "id"; "name"; "industry"; "domain"; "phone"; "city"; "state";
      "hs_createdate"; "hs_lastmodifieddate"; "hs_object_id";
      "hubspot_owner_assigneddate"; "hubspot_owner_id";
      "products"; "trial_status"; "trial_end_date" ] /\
  length defaultCompanyFields = 15 /\
  (forall s companyID company o st,
      Properties o = [] ->
      exists path resource query res w,
        issues (Get s companyID company (Some o)) st
          (CallGet path Single resource query) res w /\
        Properties query = defaultCompanyFields) /\
  (forall s company o st,
      Properties o = [] ->
      exists path resource query res w,
        issues (GetAll s company (Some o)) st
          (CallGet path Multi resource query) res w /\
        Properties query = defaultCompanyFields).
Proof.
  split; [reflexivity|split; [reflexivity|split]].
  - intros s companyID company o st Hprops.
    destruct (Get_issues_one s companyID company o st)
      as (path & resource & res & w & H).
    exists path, resource, (setupProperties o defaultCompanyFields), res, w.
    split; [exact H|]. unfold setupProperties. now rewrite Hprops.
  - intros s company o st Hprops.
    pose proof (GetAll_run s company o st) as H. cbv zeta in H.
    do 5 eexists. split; [exact H|].
    rewrite Hprops. unfold setupProperties. now rewrite Hprops.
Qed.

(** C9: [Get] and [GetAll] read through the option pointer before any
    guard: with a nil option both panic with a nil dereference, and with
    any non-nil option neither panics, each going on to its one transport
    call. *)
Theorem option_must_not_be_nil s companyID company st :
  Get s companyID company None st = Panic NilPointerDereference /\
  GetAll s company None st = Panic NilPointerDereference /\
  (forall o, exists c res w,
      issues (Get s companyID company (Some o)) st c res w) /\
  (forall o, exists c res w,
      issues (GetAll s company (Some o)) st c res w).
Proof.
  split; [reflexivity|split; [reflexivity|split]].
  - intros o. destruct (Get_issues_one s companyID company o st)
      as (path & resource & res & w & H). eauto.
  - intros o. pose proof (GetAll_run s company o st) as H.
    cbv zeta in H. eauto.
Qed.

(** C10: [GetAll] never reads its company argument: for any two targets,
    the same option and the same state of the transport, the two runs have
    the same outcome, and with a non-nil option both make the same call,
    whose response target is the multi envelope built empty, and return
    the same result. *)
Theorem GetAll_ignores_company s (t1 t2 : @iface Any)
    (option : option QueryOption) st :
  GetAll s t1 option st = GetAll s t2 option st /\
  (forall o, exists query res w,
      issues (GetAll s t1 (Some o)) st
        (CallGet (companyPath s) Multi (newMulti []) query) res w /\
      issues (GetAll s t2 (Some o)) st
        (CallGet (companyPath s) Multi (newMulti []) query) res w).
Proof.
  split; [reflexivity|].
  intros o.
  pose proof (GetAll_run s t1 o st) as H1.
  pose proof (GetAll_run s t2 o st) as H2.
  cbv zeta in H1, H2. do 3 eexists. split; [exact H1 | exact H2].
Qed.

(** X11: with a non-empty association list [Get] does not use its company
    argument: the envelope built around it is replaced by an empty one
    before the call, so any two targets give the same call and the same
    result. *)
Theorem Get_association_ignores_company s companyID (t1 t2 : @iface Any)
    o st :
  Associations o <> [] ->
  Get s companyID t1 (Some o) st = Get s companyID t2 (Some o) st.
Proof.
  intros Hassoc. unfold Get, bind, deref, ret.
  destruct (Associations o); [congruence | reflexivity].
Qed.

(** X12: the company ID goes into the path as it is. An ID that ends in
    [/associations/{type}], asked for without associations, is requested
    at the very path at which the association list of the shorter ID is
    requested; only the envelope tells the two calls apart. *)
Theorem Get_path_not_escaped s companyID association company o1 o2 st :
  Associations o1 = [] ->
  head (Associations o2) = Some association ->
  exists path,
    let query1 := setupProperties o1 defaultCompanyFields in
    let query2 := setupProperties o2 defaultCompanyFields in
    let rw1 := clientGet (client s) Single path (newResource company) query1
                 (world st) in
    let rw2 := clientGet (client s) Single path (newResource None) query2
                 (world st) in
    exists res1 res2,
      issues (Get s (companyID +:+ "/associations/" +:+ association) company
                (Some o1)) st
        (CallGet path Single (newResource company) query1) res1 rw1.2 /\
      propagates rw1.1.2 rw1.1.1 res1 /\
      issues (Get s companyID company (Some o2)) st
        (CallGet path Single (newResource None) query2) res2 rw2.2 /\
      propagates rw2.1.2 rw2.1.1 res2.
Proof.
  intros Hnone Hhead.
  destruct (Associations o2) as [|a rest] eqn:Hsome; [discriminate|].
  injection Hhead as ->.
  pose proof (Get_plain s (companyID +:+ "/associations/" +:+ association)
                company o1 st Hnone) as H1.
  pose proof (Get_association s companyID company o2 _ _ st Hsome) as H2.
  cbv zeta in H1, H2.
  rewrite (append_assoc (companyPath s)) in H2.
  change (("/" +:+ companyID) +:+ "/associations/" +:+ association)
    with ("/" +:+ companyID +:+ "/associations/" +:+ association) in H2.
  eexists. cbv zeta. do 2 eexists.
  split; [exact H1|]. split; [apply (finish_propagates (k := Single))|].
  split; [exact H2|]. apply (finish_propagates (k := Single)).
Qed.

End ServiceProperties.

(** ** The theorems at concrete inputs *)

Example RemoveProductName_only_token :
  RemoveProductName (withProducts "x") "x" = Ret zeroCompany.
Proof.
  apply (RemoveProductName_single_occurrence (withProducts "x") "x" "x" [] []);
    [reflexivity | reflexivity | apply not_elem_of_nil | apply not_elem_of_nil].
Qed.

Example RemoveProductName_adjacent_pair :
  RemoveProductName (withProducts "x;x;a") "x" = Ret (withProducts "x;a").
Proof. reflexivity. Qed.

Lemma setupProperties_default_substitution_witness :
  Properties (setupProperties (demoOption [] []) ["name"; "domain"])
    = ["name"; "domain"] /\
  setupProperties (demoOption ["custom_a"] []) ["name"; "domain"]
    = demoOption ["custom_a"] [].
Proof.
  split.
  - destruct (setupProperties_default_substitution
                (Any := string) (HsTime := unit) (SearchOption := unit)
                (Cursor := unit) (Error := string) (World := nat)
                (demoOption [] []) ["name"; "domain"]) as (Hempty & _).
    apply Hempty. reflexivity.
  - destruct (setupProperties_default_substitution
                (Any := string) (HsTime := unit) (SearchOption := unit)
                (Cursor := unit) (Error := string) (World := nat)
                (demoOption ["custom_a"] []) ["name"; "domain"])
      as (_ & Hkept & _).
    apply Hkept. discriminate.
Defined.

Lemma AddProductName_appends_witness :
  ProductNames (AddProductName (withProducts "a;b") "a") = Some "a;b;a" /\
  ProductNames (AddProductName (withProducts "") "a") = Some "a".
Proof.
  split.
  - destruct (AddProductName_appends (withProducts "a;b") "a")
      as (_ & Hpresent & _).
    apply (Hpresent "a;b"); [reflexivity | discriminate].
  - destruct (AddProductName_appends (withProducts "") "a") as (Hempty & _).
    apply Hempty. right. reflexivity.
Defined.

Lemma Get_request_shape_witness :
  issues (Get (demoService quietClient) "42" (Some "acme")
            (Some (demoOption [] []))) demoState
    (CallGet "companies/42" Single (newResource (Some "acme"))
       (setupProperties (demoOption [] []) defaultCompanyFields))
    (Some (newResource (Some "acme")), None) 1 /\
  issues (Get (demoService (failingClient "404")) "42" (Some "acme")
            (Some (demoOption [] ["contacts"; "deals"]))) demoState
    (CallGet "companies/42/associations/contacts" Single (newResource None)
       (setupProperties (demoOption [] ["contacts"; "deals"])
          defaultCompanyFields))
    (None, Some "404") 1.
Proof.
  split.
  - destruct (Get_request_shape (demoService quietClient) "42" (Some "acme")
                (demoOption [] []) demoState eq_refl) as (Hplain & _).
    destruct (Hplain eq_refl) as (res & Hrun & _ & Hok).
    rewrite (Hok eq_refl) in Hrun. exact Hrun.
  - destruct (Get_request_shape (demoService (failingClient "404")) "42"
                (Some "acme") (demoOption [] ["contacts"; "deals"])
                demoState eq_refl) as (_ & Hassoc & _).
    destruct (Hassoc "contacts" ["deals"] eq_refl) as (res & Hrun & Herr & _).
    rewrite (Herr "404" eq_refl) in Hrun. exact Hrun.
Defined.

Lemma Search_request_shape_witness :
  exists res,
    issues (Search (demoService (failingClient "boom")) (Some "acme") (Some tt))
      demoState
      (CallPost "companies/search" (BodySearch (Some tt)) Multi
         (newMulti [newResource (Some "acme")])) res 1 /\
    res = (None, Some "boom").
Proof.
  destruct (Search_request_shape (demoService (failingClient "boom"))
              (Some "acme") (Some tt) demoState eq_refl) as (res & Hrun & Hres).
  exists res. split; [exact Hrun|].
  apply Hres. reflexivity.
Defined.

Lemma Create_Update_share_structure_witness :
  (exists req resource res,
     issues (Create (demoService quietClient) (Some "acme")) demoState
       (CallPost "companies" (BodyPayload req) Single resource) res 1 /\
     payloadProperties req = Some "acme" /\
     resourceProperties resource = Some "acme") /\
  (exists req resource res,
     issues (Update (demoService quietClient) "42" (Some "acme")) demoState
       (CallPatch "companies/42" (BodyPayload req) Single resource) res 1 /\
     payloadProperties req = Some "acme" /\
     resourceProperties resource = Some "acme").
Proof.
  destruct (Create_Update_share_structure (demoService quietClient) "42"
              (Some "acme") demoState eq_refl)
    as [(req & resource & res & Hrun & Hreq & Hres & _)
        (req' & resource' & res' & Hrun' & Hreq' & Hres' & _)].
  split.
  - exists req, resource, res. repeat split; assumption.
  - exists req', resource', res'. repeat split; assumption.
Defined.

Lemma defaultCompanyFields_fifteen_names_witness :
  exists path resource query res w,
    issues (GetAll (demoService quietClient) (Some "acme")
              (Some (demoOption [] []))) demoState
      (CallGet path Multi resource query) res w /\
    Properties query = defaultCompanyFields.
Proof.
  destruct (defaultCompanyFields_fifteen_names
              (Any := string) (HsTime := unit) (QueryExtras := unit)
              (SearchOption := unit) (Cursor := unit) (Error := string)
              (World := nat)) as (_ & _ & _ & HGetAll).
  apply HGetAll. reflexivity.
Defined.

Lemma RemoveProductName_unique_token_witness :
  RemoveProductName (withProducts "a;x;b") "x" = Ret (withProducts "a;b").
Proof.
  apply (RemoveProductName_unique_token (withProducts "a;x;b") "x" "a;x;b"
           ["a"] ["b"]); [reflexivity | reflexivity | |];
    refine (bool_decide_unpack _ _); vm_compute; exact I.
Defined.

Lemma RemoveProductName_missing_name_is_noop_witness :
  RemoveProductName (withProducts "a;;b") "x" = Ret (withProducts "a;;b").
Proof.
  apply (RemoveProductName_missing_name_is_noop (withProducts "a;;b") "x"
           "a;;b"); [reflexivity|].
  refine (bool_decide_unpack _ _); vm_compute; exact I.
Defined.

Lemma RemoveProductName_panics_iff_witness :
  exists lo hi,
    RemoveProductName (withProducts "x;a;x") "x"
      = Panic (SliceBoundsOutOfRange lo hi) /\ hi < lo.
Proof.
  destruct (RemoveProductName_panics_iff (withProducts "x;a;x") "x")
    as [[_ Hpanics] Hkind].
  destruct Hpanics as [pn Hpn].
  { exists "x;a;x", [], ["a"]. split; reflexivity. }
  destruct (Hkind pn Hpn) as (lo & hi & -> & Hlt).
  exists lo, hi. split; [exact Hpn | exact Hlt].
Defined.


Lemma RemoveProductName_adjacent_duplicate_witness :
  RemoveProductName (withProducts "x;x;a") "x" = Ret (withProducts "x;a").
Proof.
  apply (RemoveProductName_adjacent_duplicate (withProducts "x;x;a") "x"
           "x;x;a" [] ["a"]);
    [reflexivity | reflexivity | | | discriminate];
    refine (bool_decide_unpack _ _); vm_compute; exact I.
Defined.

Lemma RemoveProductName_separated_duplicates_witness :
  RemoveProductName (withProducts "x;a;x;b") "x" = Ret (withProducts "a;b").
Proof.
  apply (RemoveProductName_separated_duplicates (withProducts "x;a;x;b") "x"
           "x;a;x;b" [] ["a"] ["b"]);
    [reflexivity | reflexivity | | | | discriminate | discriminate];
    refine (bool_decide_unpack _ _); vm_compute; exact I.
Defined.

Lemma RemoveProductName_delimited_name_is_noop_witness :
  RemoveProductName (withProducts "a;b") "a;b" = Ret (withProducts "a;b").
Proof.
  apply (RemoveProductName_delimited_name_is_noop (withProducts "a;b") "a;b").
  discriminate.
Defined.

Lemma AddProductName_tokens_witness :
  exists v : HsStr,
    ProductNames (AddProductName (withProducts "a") "b;c") = Some v /\
    GoStrings.Split v semicolon = ["a"; "b"; "c"].
Proof.
  destruct (AddProductName_tokens (withProducts "a") "b;c")
    as (v & Hv & _ & Hpresent).
  exists v. split; [exact Hv|].
  apply (Hpresent "a"); [reflexivity | discriminate].
Defined.

Lemma Add_then_Remove_round_trip_witness :
  RemoveProductName (AddProductName (withProducts "a;b") "x") "x"
    = Ret (withProducts "a;b") /\
  RemoveProductName (AddProductName (withProducts "") "x") "x"
    = Ret zeroCompany.
Proof.
  destruct (Add_then_Remove_round_trip (withProducts "a;b") "x" eq_refl)
    as (_ & Hpresent & _).
  destruct (Add_then_Remove_round_trip (withProducts "") "x" eq_refl)
    as (_ & _ & Hempty).
  split.
  - apply (Hpresent "a;b"); [reflexivity | discriminate |].
    refine (bool_decide_unpack _ _); vm_compute; exact I.
  - apply Hempty. reflexivity.
Defined.

Lemma Add_existing_then_Remove_panics_witness :
  exists pn,
    RemoveProductName (AddProductName (withProducts "x") "x") "x" = Panic pn.
Proof.
  apply (Add_existing_then_Remove_panics (withProducts "x") "x" "x");
    [reflexivity | discriminate |].
  refine (bool_decide_unpack _ _); vm_compute; exact I.
Defined.

Lemma Get_association_ignores_company_witness :
  Get (demoService quietClient) "42" (Some "acme")
    (Some (demoOption [] ["contacts"])) demoState =
  Get (demoService quietClient) "42" None
    (Some (demoOption [] ["contacts"])) demoState.
Proof.
  apply (Get_association_ignores_company (demoService quietClient) "42"
           (Some "acme") None (demoOption [] ["contacts"]) demoState).
  discriminate.
Defined.

Lemma Get_path_not_escaped_witness :
  exists path,
    issues (Get (demoService quietClient) "42/associations/contacts"
              (Some "acme") (Some (demoOption [] []))) demoState
      (CallGet path Single (newResource (Some "acme"))
         (setupProperties (demoOption [] []) defaultCompanyFields))
      (Some (newResource (Some "acme")), None) 1 /\
    issues (Get (demoService quietClient) "42" (Some "acme")
              (Some (demoOption [] ["contacts"]))) demoState
      (CallGet path Single (newResource None)
         (setupProperties (demoOption [] ["contacts"]) defaultCompanyFields))
      (Some (newResource None), None) 1.
Proof.
  destruct (Get_path_not_escaped (demoService quietClient) "42" "contacts"
              (Some "acme") (demoOption [] []) (demoOption [] ["contacts"])
              demoState eq_refl eq_refl)
    as (path & res1 & res2 & Hrun1 & (_ & Hok1) & Hrun2 & (_ & Hok2)).
  exists path. split.
  - rewrite (Hok1 eq_refl) in Hrun1. exact Hrun1.
  - rewrite (Hok2 eq_refl) in Hrun2. exact Hrun2.
Defined.

Lemma RemoveProductName_twice_witness :
  exists c' : Company unit,
    RemoveProductName (withProducts "a;x;b") "x" = Ret c' /\
    RemoveProductName c' "x" = Ret c'.
Proof.
  apply (RemoveProductName_twice (withProducts "a;x;b") "x" "a;x;b"
           ["a"] ["b"]); [reflexivity | reflexivity | |];
    refine (bool_decide_unpack _ _); vm_compute; exact I.
Defined.
